(** * voidbot-backend: the device-pairing relay of [server.js]

    A shallow embedding of the Express server: its two in-memory maps
    ([deviceCodes], [sessions]), the helpers [genDeviceCode],
    [genSessionToken] and [resolveDiscordTokenFromAuthHeader], the five
    route handlers and the hourly clean-up timer, followed by the
    properties of the specification that were checked against them.

    Conventions of the embedding.
    - Whatever the program obtains from outside is an explicit argument:
      the value of [Date.now()] at each of its call sites, the numbers that
      [Math.random()] returns, and the outcome of every [_fetch] to the
      provider.
    - A handler returns its reply, the store it leaves behind and the
      list of provider requests it issued.  The reply is the status and
      the body that the handler hands to [res].  The layers of Express
      around the handlers are not embedded: [express.json()], which
      answers a body that is not a JSON object or array with a 400 of its
      own before the handler runs, and [res.send], which answers a
      conditional [GET] whose validator matches with 304 and no body in
      place of the 200 of the handler.
    - In [step] and [exec] a handler is run from its first statement to
      its [return] without another handler being scheduled at its
      [await]s.  The claim handler is the one that reads the store before
      its [await] and writes it after; [Async] runs its two halves apart,
      with whatever the server does in between.
    - [Math.random() * n] is the product rounded to a double, as the
      program computes it, not the exact one. *)

From Stdlib Require Import ZArith QArith Qround Qpower Lqa String Ascii List Lia.
From stdpp Require Import gmap strings list fin_maps.

Local Open Scope string_scope.
Local Open Scope Z_scope.
Local Set Warnings "-register-all".

(** ** JavaScript values *)

Module JS.

(** The JSON-shaped values that travel through the handlers: request
    bodies, parsed provider answers, and the objects handed to
    [res.json].  A number is kept as an integer: the only numbers the
    program computes are timestamps and status codes, and a number coming
    from outside is only ever tested for truthiness or copied. *)
Inductive value : Type :=
  | Undefined
  | Null
  | Bool (b : bool)
  | Num (n : Z)
  | Str (s : string)
  | Arr (items : list value)
  | Obj (fields : list (string * value)).

(** [!v] is [negb (truthy v)]. *)
Definition truthy (v : value) : bool :=
  match v with
  | Undefined | Null => false
  | Bool b => b
  | Num n => negb (n =? 0)
  | Str s => negb (String.eqb s "")
  | Arr _ | Obj _ => true
  end.

(** [a || b] *)
Definition or (a b : value) : value := if truthy a then a else b.

Fixpoint assoc (k : string) (fs : list (string * value)) : value :=
  match fs with
  | [] => Undefined
  | (k', v) :: fs' => if String.eqb k k' then v else assoc k fs'
  end.

(** [v.k] for one of the property names the program reads ([id],
    [username], [device_code], ...), none of which is a built-in property
    of a string, number, boolean or array.  [None] is the [TypeError]
    raised on [undefined] and [null]. *)
Definition prop (v : value) (k : string) : option value :=
  match v with
  | Undefined | Null => None
  | Obj fs => Some (assoc k fs)
  | _ => Some Undefined
  end.

(** [s.slice(a, b)] and [s.slice(a)] for constant [0 <= a <= b]. *)
Definition slice (a b : nat) (s : string) : string := substring a (b - a) s.
Definition slice_from (a : nat) (s : string) : string :=
  substring a (String.length s - a) s.

(** [s.startsWith(p)] *)
Definition startsWith (p s : string) : bool := String.prefix p s.

(** Doubles, as far as [Math.random() * n] needs them: 53 significant
    bits, rounding to nearest with ties to even.  The bounds of the
    exponent are left out: they only matter for values far below 1, whose
    floor is 0 either way.

    [binade q] is the [e] with [2^e <= q < 2^(e+1)], and [ulp q] the
    distance between neighbouring doubles there. *)
Definition binade (q : Q) : Z :=
  let e := Z.log2 (Qnum q) - Z.log2 (Zpos (Qden q)) in
  if Qle_bool (Qpower 2 e) q then e else e - 1.

Definition ulp (q : Q) : Q := Qpower 2 (binade q - 52).

(** The integer nearest to [x], the even one of the two at a tie. *)
Definition nearest_even (x : Q) : Z :=
  let f := Qfloor x in
  match Qcompare (x - inject_Z f) (1 # 2) with
  | Lt => f
  | Gt => f + 1
  | Eq => if Z.even f then f else f + 1
  end.

(** The result of an arithmetic operation whose exact value is [q >= 0]. *)
Definition round_double (q : Q) : Q :=
  if Qle_bool q 0 then 0%Q
  else (inject_Z (nearest_even (q / ulp q)) * ulp q)%Q.

(** [Math.random()] returns a double.  A rational that is not one is read
    as the double next below it; a double is left as it is.  Exponents are
    not bounded below: under [2^-1022], where doubles get coarser, the
    floor of the product is 0 either way. *)
Definition to_double (q : Q) : Q :=
  if Qle_bool q 0 then 0%Q
  else (inject_Z (Qfloor (q / ulp q)) * ulp q)%Q.

(** [Math.floor(r * n)] for the result [r] of [Math.random()] and an
    integer [n] below [2^53]: the product is rounded to a double before
    its floor is taken. *)
Definition floor_mul (r : Q) (n : Z) : Z :=
  Qfloor (round_double (to_double r * inject_Z n)).

(** [s[i]], and how [Array.prototype.join] prints it: [undefined] becomes
    the empty string. *)
Definition index (s : string) (i : Z) : option ascii :=
  if i <? 0 then None else String.get (Z.to_nat i) s.

Definition joined (c : option ascii) : string :=
  match c with Some a => String a "" | None => "" end.

End JS.

(** ** Helpers *)

Definition alphabet : string := "ABCDEFGHJKMNPQRSTUVWXYZ23456789".

(** [genDeviceCode(len)].  [rnd i] is what the [i]-th call of
    [Math.random()] returns; [Array.from({length: len}, f)] calls [f] for
    the indices [0 .. len-1] in order, and [draw] is that [f]. *)
Definition draw (r : Q) : string :=
  JS.joined (JS.index alphabet (JS.floor_mul r (Z.of_nat (String.length alphabet)))).

Definition raw_code (len : nat) (rnd : nat → Q) : string :=
  String.concat "" (map (λ i, draw (rnd i)) (seq 0 len)).

Definition genDeviceCode (len : nat) (rnd : nat → Q) : string :=
  let raw := raw_code len rnd in
  JS.slice 0 4 raw +:+ "-" +:+ JS.slice 4 8 raw +:+ "-" +:+ JS.slice_from 8 raw.

(** [genSessionToken()].  [frac1] and [frac2] are the two results of
    [Math.random().toString(36).slice(2)], the base-36 digits after the
    point. *)
Definition genSessionToken (frac1 frac2 : string) : string :=
  "sess_" +:+ (frac1 +:+ frac2).

(** ** In-memory store *)

(** Timestamps are the integers of [Date.now()], milliseconds below
    [2^53], where the additions and comparisons of the program are exact. *)

(** [deviceCodes]: code -> [{ userId, discord_access_token, exp, used }] *)
Module Device.

Record row : Type := Row {
  userId : JS.value;
  discord_access_token : string;
  exp : Z;
  used : bool
}.

(** [row.used = true] *)
Definition mark_used (r : row) : row :=
  {| userId := userId r;
     discord_access_token := discord_access_token r;
     exp := exp r;
     used := true |}.

End Device.

(** [sessions]: session_token ->
    [{ userId, discord_access_token, exp, device_name }] *)
Module Session.

Record row : Type := Row {
  userId : JS.value;
  discord_access_token : string;
  exp : Z;
  device_name : JS.value
}.

End Session.

Record store : Type := Store {
  deviceCodes : gmap string Device.row;
  sessions : gmap string Session.row
}.

(** Both maps start out empty ([new Map()]). *)
Definition initial : store := {| deviceCodes := ∅; sessions := ∅ |}.

(** [m.get(k)] for a key that is an arbitrary JavaScript value.  Every
    key the program ever stores is a string, and [Map] never identifies a
    string with a value of another type. *)
Definition Map_get {V} (m : gmap string V) (k : JS.value) : option V :=
  match k with
  | JS.Str s => m !! s
  | _ => None
  end.

(** An assignment to a field of the object [m.get(k)]: the entry stored
    under [k] changes in place. *)
Definition Map_alter {V} (f : V → V) (k : JS.value) (m : gmap string V) : gmap string V :=
  match k with
  | JS.Str s => alter f s m
  | _ => m
  end.

(** ** The provider and the replies *)

(** A provider answer as the handlers see it: the status line, the body
    read as text ([.text()]), and the same body parsed ([.json()],
    [JSON.parse]), [None] when parsing throws. *)
Record response : Type := Response {
  resp_status : Z;
  text : string;
  json : option JS.value
}.

(** [r.ok] *)
Definition ok (r : response) : bool :=
  (200 <=? resp_status r) && (resp_status r <=? 299).

(** How an awaited [_fetch(...)] followed by the awaited read of its body
    ends: with an exception that lands in the handler's [catch], or with an
    answer. *)
Inductive outcome : Type :=
  | Failed
  | Answered (r : response).

(** A request issued to the provider.  [bearer] is the value interpolated
    into [`Bearer ${...}`]; [form] are the fields given to
    [URLSearchParams]. *)
Record request : Type := Request {
  url : string;
  method : string;
  bearer : option JS.value;
  form : list (string * JS.value)
}.

Definition get_users_me (tok : JS.value) : request :=
  {| url := "https://discord.com/api/users/@me"; method := "GET";
     bearer := Some tok; form := [] |}.

Definition get_guilds (tok : JS.value) : request :=
  {| url := "https://discord.com/api/users/@me/guilds"; method := "GET";
     bearer := Some tok; form := [] |}.

(** What the handler sends: [res.json(v)], or [res.send(text)] with the
    content type set to JSON. *)
Inductive payload : Type :=
  | Json (v : JS.value)
  | Raw (t : string).

Record reply : Type := Reply {
  status : Z;
  body : payload
}.

(** One handled request: the reply, the store afterwards, and the provider
    requests issued, oldest first. *)
Record run : Type := Run {
  sent : reply;
  after : store;
  calls : list request
}.

Definition error (code : string) : JS.value := JS.Obj [("error", JS.Str code)].

Definition error_with (code field : string) (v : JS.value) : JS.value :=
  JS.Obj [("error", JS.Str code); (field, v)].

(** The [catch] block shared by all handlers. *)
Definition server_error : reply :=
  {| status := 500; body := Json (error "server_error") |}.

(** The five fields copied out of a provider user object; [None] when
    the object is [null] and reading [.id] throws. *)
Definition user_view (u : JS.value) : option JS.value :=
  id ← JS.prop u "id";
  username ← JS.prop u "username";
  global_name ← JS.prop u "global_name";
  avatar ← JS.prop u "avatar";
  email ← JS.prop u "email";
  Some (JS.Obj [("id", id); ("username", username);
                ("global_name", global_name); ("avatar", avatar);
                ("email", email)]).

(** [auth.startsWith("Bearer ") ? auth.slice(7) : ""] with
    [auth = authorization || ""]. *)
Definition bearer_token (authorization : option string) : string :=
  let auth := match authorization with Some a => a | None => "" end in
  if JS.startsWith "Bearer " auth then JS.slice_from 7 auth else "".

(** [resolveDiscordTokenFromAuthHeader(authorization)], [None] for
    [null]; [now] is its [Date.now()]. *)
Definition resolveDiscordTokenFromAuthHeader
    (s : store) (authorization : option string) (now : Z) : option string :=
  let tok := bearer_token authorization in
  if String.eqb tok "" then None
  else match sessions s !! tok with
       | Some sess =>
           if now <? Session.exp sess
           then Some (Session.discord_access_token sess)
           else Some tok
       | None => Some tok
       end.

(** ** Route handlers *)

(** [req.body || {}] *)
Definition body_of (req_body : JS.value) : JS.value := JS.or req_body (JS.Obj []).

Definition respond (s : store) (code : Z) (v : JS.value) (cs : list request) : run :=
  {| sent := {| status := code; body := Json v |}; after := s; calls := cs |}.

Definition throw (s : store) (cs : list request) : run :=
  {| sent := server_error; after := s; calls := cs |}.

(** [GET /api/health] *)
Definition health (s : store) (now : Z) : run :=
  respond s 200 (JS.Obj [("ok", JS.Bool true); ("ts", JS.Num now)]) [].

(** [process.env] as far as the program reads it. *)
Record environment : Type := Environment {
  DISCORD_CLIENT_ID : JS.value;
  DISCORD_CLIENT_SECRET : JS.value;
  DISCORD_REDIRECT_URI : JS.value
}.

Definition post_token (env : environment) (code redirectUri : JS.value) : request :=
  {| url := "https://discord.com/api/oauth2/token"; method := "POST";
     bearer := None;
     form := [("client_id", DISCORD_CLIENT_ID env);
              ("client_secret", DISCORD_CLIENT_SECRET env);
              ("grant_type", JS.Str "authorization_code");
              ("code", code);
              ("redirect_uri", redirectUri)] |}.

(** [POST /api/auth/discord].  [token_out] is the outcome of the token
    exchange, [user_out] that of the user lookup. *)
Definition auth_discord (env : environment) (s : store) (req_body : JS.value)
    (token_out user_out : outcome) : run :=
  let b := body_of req_body in
  match JS.prop b "code", JS.prop b "redirect_uri" with
  | Some code, Some redirect_uri =>
    if negb (JS.truthy code) then respond s 400 (error "missing_code") []
    else
      let redirectUri := JS.or redirect_uri (DISCORD_REDIRECT_URI env) in
      let c1 := post_token env code redirectUri in
      match token_out with
      | Failed => throw s [c1]
      | Answered tokenResp =>
        match json tokenResp with
        | None => throw s [c1]
        | Some tokenData =>
          if negb (ok tokenResp)
          then respond s 400 (error_with "token_exchange_failed" "details" tokenData) [c1]
          else
            match JS.prop tokenData "access_token" with
            | None => throw s [c1]
            | Some access_token =>
              let c2 := get_users_me access_token in
              match user_out with
              | Failed => throw s [c1; c2]
              | Answered userResp =>
                match json userResp with
                | None => throw s [c1; c2]
                | Some user =>
                  if negb (JS.truthy user) || negb (JS.truthy (default JS.Undefined (JS.prop user "id")))
                  then respond s 400 (error_with "user_fetch_failed" "details" user) [c1; c2]
                  else
                    match user_view user, JS.prop tokenData "scope", JS.prop tokenData "token_type" with
                    | Some u, Some scope, Some token_type =>
                      respond s 200
                        (JS.Obj [("user", u);
                                 ("oauth", JS.Obj [("scope", scope); ("token_type", token_type)]);
                                 ("access_token", access_token)])
                        [c1; c2]
                    | _, _, _ => throw s [c1; c2]
                    end
                end
              end
            end
        end
      end
  | _, _ => throw s []
  end.

(** [POST /api/device/start].  [rnd] feeds [genDeviceCode(12)], [now] is
    the [Date.now()] of the expiry. *)
Definition device_start (s : store) (authorization : option string)
    (me_out : outcome) (rnd : nat → Q) (now : Z) : run :=
  let discordToken := bearer_token authorization in
  if String.eqb discordToken "" then respond s 401 (error "missing_bearer_token") []
  else
    let c := get_users_me (JS.Str discordToken) in
    match me_out with
    | Failed => throw s [c]
    | Answered meR =>
      let meTxt := text meR in
      if negb (ok meR)
      then respond s 401 (error_with "discord_unauthorized" "details" (JS.Str meTxt)) [c]
      else
        match json meR with
        | None => throw s [c]
        | Some me =>
          let code := genDeviceCode 12 rnd in
          let exp := now + 10 * 60 * 1000 in
          match JS.prop me "id" with
          | None => throw s [c]
          | Some id =>
            let row := {| Device.userId := id;
                          Device.discord_access_token := discordToken;
                          Device.exp := exp;
                          Device.used := false |} in
            let s' := {| deviceCodes := <[code := row]> (deviceCodes s);
                         sessions := sessions s |} in
            respond s' 200
              (JS.Obj [("device_code", JS.Str code); ("expires_at", JS.Num exp)]) [c]
          end
        end
    end.

(** [POST /api/device/claim].  [now_check] is the [Date.now()] of the
    expiry test, [now_issue] the one the session expiry is computed from;
    [frac1], [frac2] feed [genSessionToken()]. *)
Definition device_claim (s : store) (req_body : JS.value) (now_check : Z)
    (me_out : outcome) (now_issue : Z) (frac1 frac2 : string) : run :=
  let b := body_of req_body in
  match JS.prop b "device_code", JS.prop b "device_name" with
  | Some device_code, Some device_name =>
    if negb (JS.truthy device_code) then respond s 400 (error "missing_code") []
    else
      match Map_get (deviceCodes s) device_code with
      | None => respond s 400 (error "invalid_code") []
      | Some row =>
        if Device.used row then respond s 400 (error "already_used") []
        else if Device.exp row <? now_check then respond s 400 (error "expired") []
        else
          let c := get_users_me (JS.Str (Device.discord_access_token row)) in
          match me_out with
          | Failed => throw s [c]
          | Answered meR =>
            let meTxt := text meR in
            if negb (ok meR)
            then respond s 401 (error_with "discord_unauthorized" "details" (JS.Str meTxt)) [c]
            else
              match json meR with
              | None => throw s [c]
              | Some me =>
                let session_token := genSessionToken frac1 frac2 in
                let exp := now_issue + 30 * 24 * 60 * 60 * 1000 in
                let sess := {| Session.userId := Device.userId row;
                               Session.discord_access_token := Device.discord_access_token row;
                               Session.exp := exp;
                               Session.device_name := JS.or device_name (JS.Str "Windows") |} in
                let s' := {| deviceCodes := Map_alter Device.mark_used device_code (deviceCodes s);
                             sessions := <[session_token := sess]> (sessions s) |} in
                match user_view me with
                | None => throw s' [c]
                | Some u =>
                  respond s' 200
                    (JS.Obj [("session_token", JS.Str session_token);
                             ("user", u);
                             ("expires_at", JS.Num exp)]) [c]
                end
              end
          end
      end
  | _, _ => throw s []
  end.

(** The body shared by [GET /api/me] and [GET /api/discord/guilds]: they
    differ in the provider request and in the error name of the missing
    token. *)
Definition proxy (missing : string) (mk : JS.value → request)
    (s : store) (authorization : option string) (now : Z) (out : outcome) : run :=
  match resolveDiscordTokenFromAuthHeader s authorization now with
  | None => respond s 401 (error missing) []
  | Some discordToken =>
    if String.eqb discordToken "" then respond s 401 (error missing) []
    else
      let c := mk (JS.Str discordToken) in
      match out with
      | Failed => throw s [c]
      | Answered r =>
        if negb (ok r)
        then respond s (resp_status r)
               (error_with "discord_error" "body" (JS.Str (text r))) [c]
        else {| sent := {| status := 200; body := Raw (text r) |};
                after := s; calls := [c] |}
      end
  end.

(** [GET /api/me] *)
Definition api_me : store → option string → Z → outcome → run :=
  proxy "missing_token" get_users_me.

(** [GET /api/discord/guilds] *)
Definition api_discord_guilds : store → option string → Z → outcome → run :=
  proxy "missing_bearer_token" get_guilds.

(** ** The hourly clean-up *)

(** [for (const [k, v] of entries) if (dead(v)) m.delete(k)] *)
Definition delete_loop {V} (dead : V → bool) (entries : list (string * V))
    (m : gmap string V) : gmap string V :=
  foldl (λ acc kv, if dead kv.2 then delete kv.1 acc else acc) m entries.

(** The loop over [m.entries()]: every entry present when the loop starts
    is visited once, and deleting the entry being visited does not disturb
    the iteration.  A [Map] is visited in insertion order, which the model
    does not record; [delete_loop_lookup] below shows that the order does
    not matter. *)
Definition delete_where {V} (dead : V → bool) (m : gmap string V) : gmap string V :=
  delete_loop dead (map_to_list m) m.

Definition cleanup (s : store) (now : Z) : store :=
  {| sessions := delete_where (λ v, Session.exp v <=? now) (sessions s);
     deviceCodes :=
       delete_where (λ v, (Device.exp v <=? now) || Device.used v) (deviceCodes s) |}.

(** ** The server as a transition system *)

Inductive event : Type :=
  | Health (now : Z)
  | AuthDiscord (env : environment) (req_body : JS.value) (token_out user_out : outcome)
  | DeviceStart (authorization : option string) (me_out : outcome) (rnd : nat → Q) (now : Z)
  | DeviceClaim (req_body : JS.value) (now_check : Z) (me_out : outcome)
                (now_issue : Z) (frac1 frac2 : string)
  | Me (authorization : option string) (now : Z) (out : outcome)
  | Guilds (authorization : option string) (now : Z) (out : outcome)
  | Cleanup (now : Z).

Definition step (s : store) (e : event) : store :=
  match e with
  | Health now => after (health s now)
  | AuthDiscord env b t u => after (auth_discord env s b t u)
  | DeviceStart a m rnd now => after (device_start s a m rnd now)
  | DeviceClaim b n1 m n2 f1 f2 => after (device_claim s b n1 m n2 f1 f2)
  | Me a now out => after (api_me s a now out)
  | Guilds a now out => after (api_discord_guilds s a now out)
  | Cleanup now => cleanup s now
  end.

(** [exec s es]: the store after the events [es], handled in order. *)
Definition exec (s : store) (es : list event) : store := foldl step s es.

Inductive reachable : store → Prop :=
  | reach_initial : reachable initial
  | reach_step s e : reachable s → reachable (step s e).

(** * Vocabulary of the properties *)

Definition in_alphabet (c : ascii) : Prop := In c (list_ascii_of_string alphabet).

Definition over_alphabet (g : string) : Prop :=
  Forall in_alphabet (list_ascii_of_string g).

(** What [Math.random()] promises: a number in [[0, 1)]. *)
Definition unit_interval (r : Q) : Prop := (0 <= r)%Q ∧ (r < 1)%Q.

(** An [Authorization] header that carries no token: absent, not starting
    with ["Bearer "], or nothing after it. *)
Definition tokenless (authorization : option string) : Prop :=
  match authorization with
  | None => True
  | Some h => JS.startsWith "Bearer " h = false ∨ h = "Bearer "
  end.

(** Shape of the keys that the handlers put into the two maps. *)
Definition store_wf (s : store) : Prop :=
  (∀ k v, sessions s !! k = Some v → JS.startsWith "sess_" k = true)
  ∧ (∀ k v, deviceCodes s !! k = Some v → k ≠ "").

(** The two passthrough routes. *)
Definition is_proxy (e : event) : Prop :=
  match e with
  | Me _ _ _ | Guilds _ _ _ => True
  | _ => False
  end.

(** [sessions.set(k, v)] as performed by a claim of a stored code. *)
Inductive session_created (s : store) : event → string → Session.row → Prop :=
  | session_by_claim req_body now_check me_out now_issue frac1 frac2 code row name :
      JS.prop (body_of req_body) "device_code" = Some (JS.Str code) →
      JS.prop (body_of req_body) "device_name" = Some name →
      deviceCodes s !! code = Some row →
      session_created s
        (DeviceClaim req_body now_check me_out now_issue frac1 frac2)
        (genSessionToken frac1 frac2)
        {| Session.userId := Device.userId row;
           Session.discord_access_token := Device.discord_access_token row;
           Session.exp := now_issue + 2592000000;
           Session.device_name := if JS.truthy name then name else JS.Str "Windows" |}.

(** [deviceCodes.set(k, v)] as performed by a pairing start whose caller
    the provider identified as [me]. *)
Inductive code_issued : event → string → Device.row → Prop :=
  | code_by_start authorization meR me id rnd now :
      json meR = Some me →
      JS.prop me "id" = Some id →
      code_issued
        (DeviceStart authorization (Answered meR) rnd now)
        (genDeviceCode 12 rnd)
        {| Device.userId := id;
           Device.discord_access_token := bearer_token authorization;
           Device.exp := now + 600000;
           Device.used := false |}.

(** [row.used = true] as performed by a claim of the code [k]. *)
Inductive code_marked (s : store) : event → string → Device.row → Prop :=
  | marked_by_claim req_body now_check me_out now_issue frac1 frac2 code row :
      JS.prop (body_of req_body) "device_code" = Some (JS.Str code) →
      deviceCodes s !! code = Some row →
      Device.used row = false →
      code_marked s
        (DeviceClaim req_body now_check me_out now_issue frac1 frac2)
        code (Device.mark_used row).

(** A scenario used below: the user whose provider token is [tok] starts
    a pairing at time 1000 and the desktop claims the code at time 2000.
    [quoted s] is [s] between double quotes, for writing JSON text. *)
Definition quoted (s : string) : string :=
  String (ascii_of_nat 34) (s +:+ String (ascii_of_nat 34) EmptyString).

Definition sample_user : response :=
  {| resp_status := 200;
     text := "{" +:+ quoted "id" +:+ ":" +:+ quoted "42" +:+ "}";
     json := Some (JS.Obj [("id", JS.Str "42")]) |}.

Definition sample_start : event :=
  DeviceStart (Some "Bearer tok") (Answered sample_user) (λ _, 0%Q) 1000.

Definition sample_body : JS.value :=
  JS.Obj [("device_code", JS.Str "AAAA-AAAA-AAAA")].

Definition sample_claim : event :=
  DeviceClaim sample_body 2000 (Answered sample_user) 2000 "k3x" "9qz".

Definition paired : store := exec initial [sample_start; sample_claim].

(** ** The header as Node hands it over *)

(** The HTTP parser strips the blanks (space, tab) from both ends of a
    header value, so [req.headers.authorization] is absent or a string
    that neither starts nor ends with a blank. *)
Definition blank (c : ascii) : bool := Ascii.eqb c " " || Ascii.eqb c "009".

Fixpoint ends_blank (x : string) : bool :=
  match x with
  | EmptyString => false
  | String c EmptyString => blank c
  | String _ rest => ends_blank rest
  end.

Definition starts_blank (x : string) : bool :=
  match x with
  | EmptyString => false
  | String c _ => blank c
  end.

Definition received (authorization : option string) : Prop :=
  match authorization with
  | None => True
  | Some x => starts_blank x = false ∧ ends_blank x = false
  end.

(** ** Claims that overlap *)

(** [POST /api/device/claim] reads the entry and tests [row.used] and
    [row.exp] before it awaits the provider, and writes [row.used] and the
    session after.  Other handlers and the clean-up run in between, and
    [row] still is the object read at the start.  [Async] tells the two
    halves apart and keeps the row objects in a heap of their own, so that
    the object a waiting claim holds can be told from the entry now stored
    under its code. *)
Module Async.

Record state : Type := State {
  objects : list Device.row;        (* the row objects, by address *)
  code_refs : gmap string nat;      (* [deviceCodes]: code -> address *)
  session_map : gmap string Session.row   (* [sessions] *)
}.

Definition initial : state :=
  {| objects := []; code_refs := ∅; session_map := ∅ |}.

(** [deviceCodes.get(k)]: the address and the object stored under [k]. *)
Definition get (h : state) (k : JS.value) : option (nat * Device.row) :=
  a ← Map_get (code_refs h) k;
  row ← objects h !! a;
  Some (a, row).

(** The store of the rest of this file: every code with its object. *)
Definition view (h : state) : store :=
  {| deviceCodes := omap (λ a, objects h !! a) (code_refs h);
     sessions := session_map h |}.

(** A claim that waits for the provider: the address of [row] and the
    [device_name] of its request. *)
Record pending : Type := Pending {
  held : nat;
  label : JS.value
}.

Inductive begun : Type :=
  | Replied (r : reply)
  | Awaiting (p : pending) (c : request).

Definition refuse (code : string) : begun :=
  Replied {| status := 400; body := Json (error code) |}.

(** The claim handler up to its first [await]. *)
Definition claim_begin (h : state) (req_body : JS.value) (now_check : Z) : begun :=
  let b := body_of req_body in
  match JS.prop b "device_code", JS.prop b "device_name" with
  | Some device_code, Some device_name =>
    if negb (JS.truthy device_code) then refuse "missing_code"
    else
      match get h device_code with
      | None => refuse "invalid_code"
      | Some (a, row) =>
        if Device.used row then refuse "already_used"
        else if Device.exp row <? now_check then refuse "expired"
        else Awaiting {| held := a; label := device_name |}
               (get_users_me (JS.Str (Device.discord_access_token row)))
      end
  | _, _ => Replied server_error
  end.

(** The claim handler from the point where the provider has answered.
    The object at [held p] exists: objects are never removed. *)
Definition claim_finish (h : state) (p : pending) (me_out : outcome)
    (now_issue : Z) (frac1 frac2 : string) : reply * state :=
  match objects h !! held p, me_out with
  | None, _ => (server_error, h)
  | Some row, Failed => (server_error, h)
  | Some row, Answered meR =>
    let meTxt := text meR in
    if negb (ok meR)
    then ({| status := 401;
             body := Json (error_with "discord_unauthorized" "details" (JS.Str meTxt)) |}, h)
    else
      match json meR with
      | None => (server_error, h)
      | Some me =>
        let session_token := genSessionToken frac1 frac2 in
        let exp := now_issue + 30 * 24 * 60 * 60 * 1000 in
        let sess := {| Session.userId := Device.userId row;
                       Session.discord_access_token := Device.discord_access_token row;
                       Session.exp := exp;
                       Session.device_name := JS.or (label p) (JS.Str "Windows") |} in
        let h' := {| objects := <[held p := Device.mark_used row]> (objects h);
                     code_refs := code_refs h;
                     session_map := <[session_token := sess]> (session_map h) |} in
        match user_view me with
        | None => (server_error, h')
        | Some u =>
          ({| status := 200;
              body := Json (JS.Obj [("session_token", JS.Str session_token);
                                    ("user", u);
                                    ("expires_at", JS.Num exp)]) |}, h')
        end
      end
  end.

(** [POST /api/device/start] reads nothing of the store before its
    [await], so it acts on the store in one piece, when it resumes:
    [deviceCodes.set(code, {...})] puts a new object under the code. *)
Definition device_start (h : state) (authorization : option string)
    (me_out : outcome) (rnd : nat → Q) (now : Z) : state :=
  let discordToken := bearer_token authorization in
  if String.eqb discordToken "" then h
  else
    match me_out with
    | Failed => h
    | Answered meR =>
      if negb (ok meR) then h
      else
        match json meR with
        | None => h
        | Some me =>
          match JS.prop me "id" with
          | None => h
          | Some id =>
            {| objects := objects h ++
                 [{| Device.userId := id;
                     Device.discord_access_token := discordToken;
                     Device.exp := now + 10 * 60 * 1000;
                     Device.used := false |}];
               code_refs := <[genDeviceCode 12 rnd := length (objects h)]> (code_refs h);
               session_map := session_map h |}
          end
        end
    end.

(** The clean-up, which runs without an [await]. *)
Definition cleanup (h : state) (now : Z) : state :=
  {| objects := objects h;
     code_refs :=
       delete_where
         (λ a, match objects h !! a with
               | Some v => (Device.exp v <=? now) || Device.used v
               | None => false
               end)
         (code_refs h);
     session_map := delete_where (λ v, Session.exp v <=? now) (session_map h) |}.

(** What can happen between two [await]s.  [Finish] resumes a waiting
    claim, whichever; [Quiet] stands for everything that writes nothing:
    the first half of a claim, the health check, the code exchange and the
    passthrough routes. *)
Inductive event : Type :=
  | Quiet
  | Finish (p : pending) (me_out : outcome) (now_issue : Z) (frac1 frac2 : string)
  | Start (authorization : option string) (me_out : outcome) (rnd : nat → Q) (now : Z)
  | Sweep (now : Z).

Definition step (h : state) (e : event) : state :=
  match e with
  | Quiet => h
  | Finish p m n f1 f2 => (claim_finish h p m n f1 f2).2
  | Start a m rnd now => device_start h a m rnd now
  | Sweep now => cleanup h now
  end.

Definition exec (h : state) (es : list event) : state := foldl step h es.

(** Every address in the map holds an object. *)
Definition wf (h : state) : Prop :=
  ∀ k a, code_refs h !! k = Some a → (a < length (objects h))%nat.

(** No two codes share an object. *)
Definition unshared (h : state) : Prop :=
  ∀ k1 k2 a, code_refs h !! k1 = Some a → code_refs h !! k2 = Some a → k1 = k2.

(** [e] is not a pairing start that draws the code [code]. *)
Definition draws_other (code : string) (e : event) : Prop :=
  match e with
  | Start _ _ rnd _ => genDeviceCode 12 rnd ≠ code
  | _ => True
  end.

(** The code [code] can no longer be claimed: it is absent or used. *)
Definition spent (code : string) (h : state) : Prop :=
  ∀ a row, code_refs h !! code = Some a → objects h !! a = Some row →
           Device.used row = true.

(** The state after the sample start, on which two claims overlap. *)
Definition issued : state :=
  step initial (Start (Some "Bearer tok") (Answered sample_user) (λ _, 0%Q) 1000).

End Async.

(** * Vocabulary of the further properties *)

(** What [express.json()] leaves in [req.body] for a handler: the object or
    the array it has parsed, or nothing when the request had no JSON body.
    A body that is another JSON value never reaches a handler. *)
Definition parsed (req_body : JS.value) : Prop :=
  match req_body with
  | JS.Undefined | JS.Obj _ | JS.Arr _ => True
  | _ => False
  end.

(** The provider tokens and device labels held in the two maps are never
    empty. *)
Definition tokens_wf (s : store) : Prop :=
  (∀ k v, sessions s !! k = Some v →
     Session.discord_access_token v ≠ ""
     ∧ JS.truthy (Session.device_name v) = true)
  ∧ (∀ k v, deviceCodes s !! k = Some v → Device.discord_access_token v ≠ "").

(** [e] neither overwrites the session stored under [t] nor sweeps it when
    its expiry is [exp]. *)
Definition keeps_session (t : string) (exp : Z) (e : event) : Prop :=
  match e with
  | DeviceClaim _ _ _ _ frac1 frac2 => genSessionToken frac1 frac2 ≠ t
  | Cleanup now => now < exp
  | _ => True
  end.

(** [e] neither claims nor re-issues the code [code] nor sweeps it when its
    expiry is [exp]. *)
Definition keeps_code (code : string) (exp : Z) (e : event) : Prop :=
  match e with
  | DeviceStart _ _ rnd _ => genDeviceCode 12 rnd ≠ code
  | DeviceClaim req_body _ _ _ _ _ =>
      JS.prop (body_of req_body) "device_code" ≠ Some (JS.Str code)
  | Cleanup now => now < exp
  | _ => True
  end.

(** The session record a claim of [row] stores. *)
Definition session_of (row : Device.row) (now_issue : Z) (device_name : JS.value)
    : Session.row :=
  {| Session.userId := Device.userId row;
     Session.discord_access_token := Device.discord_access_token row;
     Session.exp := now_issue + 2592000000;
     Session.device_name := JS.or device_name (JS.Str "Windows") |}.

(** The index [draw] reads the alphabet at. *)
Definition draw_index (r : Q) : Z :=
  JS.floor_mul r (Z.of_nat (String.length alphabet)).

(** A character of a device code: a dash or a letter of the alphabet. *)
Definition code_char (c : ascii) : Prop := c = "-"%char ∨ in_alphabet c.

(** The letter a draw contributes to a code ([-] stands in when the draw
    falls outside the alphabet, which [Math.random()] never causes). *)
Definition letter (r : Q) : ascii :=
  match JS.index alphabet (draw_index r) with
  | Some c => c
  | None => "-"%char
  end.

(** * Auxiliary facts *)

(** ** Rounding to a double *)

Lemma pow2_pos (z : Z) : (0 < Qpower 2 z)%Q.
Proof. apply Qpower_0_lt. reflexivity. Qed.

Lemma pow2_le (a b : Z) : a <= b → (Qpower 2 a <= Qpower 2 b)%Q.
Proof. intros H. apply Qpower_le_compat_l; [exact H | discriminate]. Qed.

Lemma pow2_succ (z : Z) : (Qpower 2 (z + 1) == 2 * Qpower 2 z)%Q.
Proof. rewrite Qpower_plus by discriminate. change (Qpower 2 1) with 2%Q. ring. Qed.

Lemma pow2_inject (z : Z) : 0 <= z → (Qpower 2 z == inject_Z (2 ^ z))%Q.
Proof. intros H. symmetry. apply (Zpower_Qpower 2 z H). Qed.

Lemma binade_spec (q : Q) :
  (0 < q)%Q → (Qpower 2 (JS.binade q) <= q)%Q ∧ (q < Qpower 2 (JS.binade q + 1))%Q.
Proof.
  intros Hq. destruct q as [a b]. unfold JS.binade. cbn [Qnum Qden].
  assert (Ha : 0 < a) by (unfold Qlt in Hq; cbn in Hq; lia).
  destruct (Z.log2_spec a Ha) as [Ha1 Ha2].
  destruct (Z.log2_spec (Zpos b) eq_refl) as [Hb1 Hb2].
  pose proof (Z.log2_nonneg a) as Hla. pose proof (Z.log2_nonneg (Zpos b)) as Hlb.
  set (la := Z.log2 a) in *. set (lb := Z.log2 (Zpos b)) in *.
  assert (Hb : (0 < inject_Z (Zpos b))%Q) by reflexivity.
  assert (Hlo : (Qpower 2 (la - lb - 1) < a # b)%Q).
  { rewrite (Qmake_Qdiv a b). apply Qlt_shift_div_l; [exact Hb |].
    apply Qlt_le_trans with (inject_Z (2 ^ la)); [| now rewrite <- Zle_Qle].
    replace la with ((la - lb - 1) + (lb + 1)) at 2 by lia.
    rewrite <- (pow2_inject (la - lb - 1 + (lb + 1))) by lia.
    rewrite Qpower_plus by discriminate.
    apply Qmult_lt_l; [apply pow2_pos |].
    rewrite pow2_inject by lia. now rewrite <- Zlt_Qlt. }
  assert (Hhi : (a # b < Qpower 2 (la - lb + 1))%Q).
  { rewrite (Qmake_Qdiv a b). apply Qlt_shift_div_r; [exact Hb |].
    apply Qlt_le_trans with (inject_Z (2 ^ (la + 1))); [now rewrite <- Zlt_Qlt |].
    replace (la + 1) with ((la - lb + 1) + lb) at 1 by lia.
    rewrite <- (pow2_inject (la - lb + 1 + lb)) by lia.
    rewrite Qpower_plus by discriminate.
    apply Qmult_le_l; [apply pow2_pos |].
    rewrite pow2_inject by lia. now rewrite <- Zle_Qle. }
  destruct (Qle_bool (Qpower 2 (la - lb)) (a # b)) eqn:Hc.
  - apply Qle_bool_iff in Hc. split; assumption.
  - assert (Hlt : (a # b < Qpower 2 (la - lb))%Q).
    { apply Qnot_le_lt. intros H. apply Qle_bool_iff in H. congruence. }
    split; [apply Qlt_le_weak; exact Hlo |].
    replace (la - lb - 1 + 1) with (la - lb) by lia. exact Hlt.
Qed.

Lemma nearest_even_bounds (x : Q) :
  (0 <= x)%Q → 0 <= JS.nearest_even x ∧ (inject_Z (JS.nearest_even x) <= x + (1 # 2))%Q.
Proof.
  intros Hx. unfold JS.nearest_even.
  assert (Hf : 0 <= Qfloor x).
  { rewrite <- (Qfloor_Z 0). now apply Qfloor_resp_le. }
  pose proof (Qfloor_le x) as Hle.
  pose proof (inject_Z_plus (Qfloor x) 1) as Hplus.
  destruct (Qcompare_spec (x - inject_Z (Qfloor x)) (1 # 2)) as [He | Hl | Hg].
  - destruct (Z.even (Qfloor x)); (split; [lia |]); [lra |].
    rewrite Hplus. change (inject_Z 1) with 1%Q. lra.
  - split; [exact Hf | lra].
  - split; [lia |]. rewrite Hplus. change (inject_Z 1) with 1%Q. lra.
Qed.

Lemma to_double_range (r : Q) :
  (0 <= r)%Q → (r < 1)%Q →
  (0 <= JS.to_double r)%Q ∧ (JS.to_double r <= 1 - Qpower 2 (-53))%Q.
Proof.
  intros H0 H1. unfold JS.to_double.
  destruct (Qle_bool r 0) eqn:Hz; [split; [lra | vm_compute; discriminate] |].
  assert (Hr : (0 < r)%Q).
  { apply Qnot_le_lt. intros H. apply Qle_bool_iff in H. congruence. }
  destruct (binade_spec r Hr) as [Hlo Hhi].
  unfold JS.ulp. set (e := JS.binade r) in *.
  pose proof (pow2_pos (e - 52)) as Hu. set (u := Qpower 2 (e - 52)) in *.
  pose proof (Qfloor_le (r / u)) as Hfl.
  assert (Hk : 0 <= Qfloor (r / u)).
  { rewrite <- (Qfloor_Z 0). apply Qfloor_resp_le.
    apply Qle_shift_div_l; [exact Hu | change (inject_Z 0) with 0%Q; lra]. }
  assert (Hx : (inject_Z (Qfloor (r / u)) * u <= r)%Q).
  { apply Qle_trans with (r / u * u)%Q.
    - apply Qmult_le_compat_r; [exact Hfl | lra].
    - unfold Qdiv. rewrite <- Qmult_assoc, (Qmult_comm (/ u)), Qmult_inv_r by lra.
      lra. }
  split.
  - apply Qmult_le_0_compat; [| lra]. now rewrite <- (Zle_Qle 0).
  - destruct (Qlt_le_dec r (1 # 2)) as [Hsmall | Hbig].
    + apply Qle_trans with r; [exact Hx |].
      apply Qle_trans with (1 # 2)%Q; [lra | vm_compute; discriminate].
    + assert (He : e = -1).
      { assert (e < 0).
        { destruct (Z.ltb_spec e 0); [assumption |].
          pose proof (pow2_le 0 e ltac:(lia)) as Hp.
          change (Qpower 2 0) with 1%Q in Hp. lra. }
        assert (-2 < e).
        { destruct (Z.ltb_spec (-2) e); [assumption |].
          pose proof (pow2_le (e + 1) (-1) ltac:(lia)) as Hp.
          change (Qpower 2 (-1)) with (1 # 2)%Q in Hp. lra. }
        lia. }
      subst u. rewrite He in *. change (-1 - 52) with (-53) in *.
      assert (Hlt : Qfloor (r / Qpower 2 (-53)) < 2 ^ 53).
      { rewrite Zlt_Qlt. apply Qle_lt_trans with (r / Qpower 2 (-53))%Q; [exact Hfl |].
        apply Qlt_shift_div_r; [exact Hu |].
        change (inject_Z (2 ^ 53) * Qpower 2 (-53))%Q with (9007199254740992 * (1 # 9007199254740992))%Q.
        lra. }
      apply Qle_trans with (inject_Z (2 ^ 53 - 1) * Qpower 2 (-53))%Q.
      * apply Qmult_le_compat_r; [| lra]. rewrite <- Zle_Qle. lia.
      * vm_compute. discriminate.
Qed.

Lemma round_double_bounds (q : Q) :
  (0 <= q)%Q →
  (0 <= JS.round_double q)%Q ∧ (JS.round_double q <= q * (1 + Qpower 2 (-53)))%Q.
Proof.
  intros H0. unfold JS.round_double.
  destruct (Qle_bool q 0) eqn:Hz.
  { apply Qle_bool_iff in Hz. split; [lra |].
    assert (q == 0)%Q as -> by lra. vm_compute. discriminate. }
  assert (Hq : (0 < q)%Q).
  { apply Qnot_le_lt. intros H. apply Qle_bool_iff in H. congruence. }
  destruct (binade_spec q Hq) as [Hlo _].
  unfold JS.ulp. set (e := JS.binade q) in *.
  pose proof (pow2_pos (e - 52)) as Hu.
  assert (Hue : (Qpower 2 (e - 52) == Qpower 2 e * Qpower 2 (-52))%Q).
  { replace (e - 52) with (e + -52) by lia. now rewrite Qpower_plus. }
  set (u := Qpower 2 (e - 52)) in *.
  assert (Hx : (0 <= q / u)%Q) by (apply Qle_shift_div_l; [exact Hu | lra]).
  destruct (nearest_even_bounds (q / u) Hx) as [Hn0 Hn].
  split.
  - apply Qmult_le_0_compat; [| lra]. now rewrite <- (Zle_Qle 0).
  - apply Qle_trans with ((q / u + (1 # 2)) * u)%Q.
    + apply Qmult_le_compat_r; [exact Hn | lra].
    + assert (Hdiv : (q / u * u == q)%Q).
      { unfold Qdiv. rewrite <- Qmult_assoc, (Qmult_comm (/ u)), Qmult_inv_r by lra.
        ring. }
      assert (E : ((q / u + (1 # 2)) * u == q / u * u + (1 # 2) * u)%Q) by ring.
      rewrite E, Hdiv, Hue.
      change (Qpower 2 (-52)) with (1 # 4503599627370496)%Q.
      change (Qpower 2 (-53)) with (1 # 9007199254740992)%Q.
      pose proof (pow2_pos e). lra.
Qed.

(** ** Strings and values *)

Lemma substring_all (t : string) : substring 0 (String.length t) t = t.
Proof. induction t as [| c t IH]; cbn; [reflexivity | now rewrite IH]. Qed.

Lemma prefix_empty (t : string) : String.prefix "" t = true.
Proof. destruct t; reflexivity. Qed.

Lemma bearer_token_bearer (t : string) : bearer_token (Some ("Bearer " +:+ t)) = t.
Proof.
  unfold bearer_token, JS.startsWith, JS.slice_from.
  cbv beta iota fix delta [String.append]. cbn.
  rewrite prefix_empty. rewrite Nat.sub_0_r. apply substring_all.
Qed.

Lemma bearer_token_tokenless (h : option string) :
  tokenless h → bearer_token h = "".
Proof.
  destruct h as [h |]; unfold tokenless, bearer_token; [| reflexivity].
  intros [-> | ->]; reflexivity.
Qed.

Lemma eqb_empty_false (t : string) : t ≠ "" → String.eqb t "" = false.
Proof. intros H. now apply String.eqb_neq. Qed.

Lemma sess_prefix_nonempty (k : string) : JS.startsWith "sess_" k = true → k ≠ "".
Proof. intros H ->. discriminate H. Qed.

Lemma genSessionToken_prefix f1 f2 :
  JS.startsWith "sess_" (genSessionToken f1 f2) = true.
Proof.
  unfold genSessionToken, JS.startsWith.
  cbv beta iota fix delta [String.append]. cbn. apply prefix_empty.
Qed.

Lemma genDeviceCode_nonempty len rnd : genDeviceCode len rnd ≠ "".
Proof.
  unfold genDeviceCode. cbv zeta.
  destruct (JS.slice 0 4 (raw_code len rnd)); discriminate.
Qed.

Lemma body_of_prop (b : JS.value) (k : string) : is_Some (JS.prop (body_of b) k).
Proof.
  unfold body_of, JS.or.
  destruct b as [| | [|] | n | t | items | fs]; cbn; eauto.
  - destruct (n =? 0); cbn; eauto.
  - destruct (String.eqb t ""); cbn; eauto.
Qed.

Lemma Map_get_Some {V} (m : gmap string V) (v : JS.value) (x : V) :
  Map_get m v = Some x → ∃ k, v = JS.Str k ∧ m !! k = Some x.
Proof. destruct v; cbn; try discriminate. eauto. Qed.

Lemma alter_stored {V} (f : V → V) (m : gmap string V) (k : string) (x : V) :
  m !! k = Some x → alter f k m = <[k := f x]> m.
Proof.
  intros Hk. apply map_eq. intros j. rewrite lookup_alter, lookup_insert.
  case_decide as Hj; [subst j; now rewrite Hk | reflexivity].
Qed.

(** ** The clean-up loop *)

Section DeleteLoop.
Context {V : Type} (dead : V → bool).
Implicit Types (l : list (string * V)) (m : gmap string V) (k : string).

Lemma delete_loop_cons i x l m :
  delete_loop dead ((i, x) :: l) m
  = delete_loop dead l (if dead x then delete i m else m).
Proof. reflexivity. Qed.

(** The loop only deletes. *)
Lemma delete_loop_None l : ∀ m k, m !! k = None → delete_loop dead l m !! k = None.
Proof.
  induction l as [| [i x] l IH]; intros m k Hk; [exact Hk |].
  rewrite delete_loop_cons. apply IH. destruct (dead x); [| exact Hk].
  rewrite lookup_delete. case_decide; [reflexivity | exact Hk].
Qed.

(** The loop in any visiting order: a key with a dead entry among those
    visited is gone, a key all of whose visited entries are alive is
    untouched. *)
Lemma delete_loop_lookup l : ∀ m k,
  ((∃ v, (k, v) ∈ l ∧ dead v = true) → delete_loop dead l m !! k = None)
  ∧ ((∀ v, (k, v) ∈ l → dead v = false) → delete_loop dead l m !! k = m !! k).
Proof.
  induction l as [| [i x] l IH]; intros m k; split.
  - intros (v & Hin & _). inversion Hin.
  - reflexivity.
  - intros (v & Hin & Hdead). rewrite delete_loop_cons.
    apply elem_of_cons in Hin as [[= <- <-] | Hin].
    + rewrite Hdead. apply delete_loop_None, lookup_delete_eq.
    + apply (IH _ k). eauto.
  - intros Halive. rewrite delete_loop_cons.
    rewrite (proj2 (IH _ k)) by (intros v Hv; apply Halive; now right).
    destruct (dead x) eqn:Hx; [| reflexivity].
    rewrite lookup_delete_ne; [reflexivity |].
    intros ->. rewrite (Halive x) in Hx; [discriminate | now left].
Qed.

Lemma delete_where_lookup m k :
  delete_where dead m !! k = (v ← m !! k; if dead v then None else Some v).
Proof.
  unfold delete_where.
  destruct (m !! k) as [v |] eqn:Hk; cbn.
  - destruct (dead v) eqn:Hv.
    + apply delete_loop_lookup. exists v. split; [| exact Hv].
      now apply elem_of_map_to_list.
    + rewrite (proj2 (delete_loop_lookup (map_to_list m) m k)), Hk; [reflexivity |].
      intros w Hw%elem_of_map_to_list. congruence.
  - now apply delete_loop_None.
Qed.

Lemma delete_where_Some m k v :
  delete_where dead m !! k = Some v → m !! k = Some v ∧ dead v = false.
Proof.
  rewrite delete_where_lookup. destruct (m !! k) as [w |]; cbn; [| discriminate].
  destruct (dead w) eqn:E; [discriminate |]. intros [= ->]. auto.
Qed.

End DeleteLoop.

(** ** Keys of the two maps *)

Lemma proxy_after missing mk s a now out : after (proxy missing mk s a now out) = s.
Proof.
  unfold proxy.
  destruct (resolveDiscordTokenFromAuthHeader s a now) as [tok |]; [| reflexivity].
  destruct (String.eqb tok ""); [reflexivity |].
  destruct out as [| r]; [reflexivity |]. destruct (negb (ok r)); reflexivity.
Qed.

Lemma auth_discord_after env s b t u : after (auth_discord env s b t u) = s.
Proof.
  unfold auth_discord.
  repeat match goal with
         | |- after (match ?x with _ => _ end) = _ => destruct x
         | |- after (if ?x then _ else _) = _ => destruct x
         end; reflexivity.
Qed.

(** What a pairing start leaves behind: nothing, or one entry. *)
Lemma device_start_after s a m rnd now :
  after (device_start s a m rnd now) = s
  ∨ ∃ row, code_issued (DeviceStart a m rnd now) (genDeviceCode 12 rnd) row
           ∧ after (device_start s a m rnd now)
             = {| deviceCodes := <[genDeviceCode 12 rnd := row]> (deviceCodes s);
                  sessions := sessions s |}.
Proof.
  unfold device_start.
  destruct (String.eqb (bearer_token a) ""); [now left |].
  destruct m as [| meR]; [now left |].
  destruct (negb (ok meR)); [now left |].
  destruct (json meR) as [me |] eqn:Hjson; [| now left].
  destruct (JS.prop me "id") as [id |] eqn:Hid; [| now left].
  right. eexists. split; [| reflexivity].
  change (now + 10 * 60 * 1000) with (now + 600000).
  econstructor; eassumption.
Qed.

(** What a claim leaves behind: nothing, or the code marked used together
    with one new session. *)
Lemma device_claim_after s b n1 m n2 f1 f2 :
  after (device_claim s b n1 m n2 f1 f2) = s
  ∨ ∃ code row sess,
      code_marked s (DeviceClaim b n1 m n2 f1 f2) code (Device.mark_used row)
      ∧ session_created s (DeviceClaim b n1 m n2 f1 f2) (genSessionToken f1 f2) sess
      ∧ deviceCodes s !! code = Some row
      ∧ code ≠ ""
      ∧ after (device_claim s b n1 m n2 f1 f2)
        = {| deviceCodes := <[code := Device.mark_used row]> (deviceCodes s);
             sessions := <[genSessionToken f1 f2 := sess]> (sessions s) |}.
Proof.
  unfold device_claim.
  destruct (JS.prop (body_of b) "device_code") as [dc |] eqn:Hdc; [| now left].
  destruct (JS.prop (body_of b) "device_name") as [dn |] eqn:Hdn; [| now left].
  destruct (negb (JS.truthy dc)) eqn:Htruthy; [now left |].
  destruct (Map_get (deviceCodes s) dc) as [row |] eqn:Hget; [| now left].
  destruct (Map_get_Some _ _ _ Hget) as (code & -> & Hrow).
  destruct (Device.used row) eqn:Hused; [now left |].
  destruct (Device.exp row <? n1); [now left |].
  destruct m as [| meR]; [now left |].
  destruct (negb (ok meR)); [now left |].
  destruct (json meR) as [me |]; [| now left].
  right. exists code, row. eexists. split; [| split; [| split; [| split]]].
  - econstructor; eassumption.
  - change (n2 + 30 * 24 * 60 * 60 * 1000) with (n2 + 2592000000).
    unfold JS.or. econstructor; eassumption.
  - exact Hrow.
  - intros ->. discriminate Htruthy.
  - cbn [Map_alter]. rewrite (alter_stored _ _ _ _ Hrow).
    destruct (user_view me); reflexivity.
Qed.

Lemma step_wf s e : store_wf s → store_wf (step s e).
Proof.
  intros [Hs Hd]. destruct e; cbn [step].
  - split; assumption.
  - rewrite auth_discord_after. split; assumption.
  - destruct (device_start_after s authorization me_out rnd now)
      as [-> | (row & _ & ->)]; [split; assumption |].
    split; cbn; [exact Hs |].
    intros k x. rewrite lookup_insert.
    case_decide as Hk; [intros _; subst k; apply genDeviceCode_nonempty | apply Hd].
  - destruct (device_claim_after s req_body now_check me_out now_issue frac1 frac2)
      as [-> | (code & row & sess & _ & _ & Hrow & Hcode & ->)]; [split; assumption |].
    split; cbn; intros k x; rewrite lookup_insert; case_decide as Hk.
    + intros _. subst k. apply genSessionToken_prefix.
    + apply Hs.
    + intros _. now subst k.
    + apply Hd.
  - unfold api_me. rewrite proxy_after. split; assumption.
  - unfold api_discord_guilds. rewrite proxy_after. split; assumption.
  - split; cbn; intros k x [H _]%delete_where_Some; eauto.
Qed.

Lemma reachable_wf s : reachable s → store_wf s.
Proof.
  induction 1 as [| s e _ IH]; [| now apply step_wf].
  split; intros k v; cbn; rewrite lookup_empty; discriminate.
Qed.

Lemma reachable_exec s es : reachable s → reachable (exec s es).
Proof.
  revert s. induction es as [| e es IH]; intros s Hs; cbn; [exact Hs |].
  apply IH. now constructor.
Qed.

(** * The claims *)

(** ** Rejected claims *)

(** C1, as amended.  For a claim that supplies a device code: a code that
    is not a key of [deviceCodes] is answered 400 [invalid_code]; a stored
    code whose [used] flag is set is answered 400 [already_used]; a stored
    code that is not used and whose expiry lies in the past is answered
    400 [expired].  In each case the store is left as it was and the
    provider is not contacted. *)
Theorem claim_rejections (s : store) (req_body device_code : JS.value)
    (now_check : Z) (me_out : outcome) (now_issue : Z) (frac1 frac2 : string) :
  JS.prop (body_of req_body) "device_code" = Some device_code →
  JS.truthy device_code = true →
  let r := device_claim s req_body now_check me_out now_issue frac1 frac2 in
  let rejected (code : string) :=
    sent r = {| status := 400; body := Json (error code) |}
    ∧ after r = s ∧ calls r = [] in
  (Map_get (deviceCodes s) device_code = None → rejected "invalid_code")
  ∧ (∀ row, Map_get (deviceCodes s) device_code = Some row →
            Device.used row = true → rejected "already_used")
  ∧ (∀ row, Map_get (deviceCodes s) device_code = Some row →
            Device.used row = false → Device.exp row < now_check →
            rejected "expired").
Proof.
  intros Hdc Htruthy r rejected. subst r rejected. unfold device_claim.
  rewrite Hdc. destruct (body_of_prop req_body "device_name") as [dn ->].
  rewrite Htruthy. cbn [negb].
  split; [| split].
  - intros Hnone. rewrite Hnone. repeat split.
  - intros row Hrow Hused. rewrite Hrow, Hused. repeat split.
  - intros row Hrow Hused Hexp. rewrite Hrow, Hused.
    apply Z.ltb_lt in Hexp. rewrite Hexp. repeat split.
Qed.

(** [claim_rejections] on the paired store: the code was claimed, so a
    second claim is answered [already_used]. *)
Lemma claim_rejections_witness :
  sent (device_claim paired sample_body 3000 (Answered sample_user) 3000 "a" "b")
  = {| status := 400; body := Json (error "already_used") |}.
Proof.
  refine (let H := claim_rejections paired sample_body (JS.Str "AAAA-AAAA-AAAA")
                     3000 (Answered sample_user) 3000 "a" "b" eq_refl eq_refl in _).
  destruct H as (_ & Hused & _).
  refine (proj1 (Hused {| Device.userId := JS.Str "42";
                          Device.discord_access_token := "tok";
                          Device.exp := 601000; Device.used := true |} _ eq_refl)).
  vm_compute. reflexivity.
Defined.

(** C1, as stated, fails: the entry of a code that was claimed and has
    since expired is both used and past its expiry; the claim is answered
    [already_used], not [expired]. *)
Lemma claim_used_and_expired_counterexample :
  ∃ row,
    deviceCodes paired !! "AAAA-AAAA-AAAA" = Some row
    ∧ Device.exp row < 700000
    ∧ sent (device_claim paired sample_body 700000 (Answered sample_user) 700000 "a" "b")
      = {| status := 400; body := Json (error "already_used") |}
    ∧ sent (device_claim paired sample_body 700000 (Answered sample_user) 700000 "a" "b")
      ≠ {| status := 400; body := Json (error "expired") |}.
Proof.
  exists {| Device.userId := JS.Str "42"; Device.discord_access_token := "tok";
            Device.exp := 601000; Device.used := true |}.
  split; [vm_compute; reflexivity |]. split; [reflexivity |].
  split; [vm_compute; reflexivity |]. vm_compute. discriminate.
Qed.

(** ** Resolving the bearer token *)

Lemma resolve_with_token s t now :
  t ≠ "" →
  resolveDiscordTokenFromAuthHeader s (Some ("Bearer " +:+ t)) now
  = match sessions s !! t with
    | Some sess =>
        if now <? Session.exp sess
        then Some (Session.discord_access_token sess)
        else Some t
    | None => Some t
    end.
Proof.
  intros Ht. unfold resolveDiscordTokenFromAuthHeader.
  rewrite bearer_token_bearer. cbv zeta. now rewrite eqb_empty_false.
Qed.

Lemma resolve_tokenless s h now :
  tokenless h → resolveDiscordTokenFromAuthHeader s h now = None.
Proof.
  intros Hh. unfold resolveDiscordTokenFromAuthHeader.
  now rewrite (bearer_token_tokenless h Hh).
Qed.

Lemma proxy_forwards missing mk s h now out tok :
  resolveDiscordTokenFromAuthHeader s h now = Some tok →
  tok ≠ "" →
  calls (proxy missing mk s h now out) = [mk (JS.Str tok)]
  ∧ sent (proxy missing mk s h now out)
    ≠ {| status := 401; body := Json (error missing) |}.
Proof.
  intros Hres Htok. unfold proxy. rewrite Hres, (eqb_empty_false tok Htok).
  destruct out as [| r]; [split; [reflexivity | discriminate] |].
  destruct (negb (ok r)); split; try reflexivity; cbn; unfold error_with, error;
    congruence.
Qed.

Lemma received_bearer (t : string) : received (Some ("Bearer " +:+ t)) → t ≠ "".
Proof. intros [_ H] ->. discriminate H. Qed.

(** C2.  The header is taken as Node hands it over, without a blank at
    either end.  For a header ["Bearer <t>"]: when [<t>] is a key of
    [sessions] whose expiry is strictly greater than the current time the
    function returns the provider access token stored in that session, and
    otherwise it returns [<t>] itself.  For a header that is missing or
    does not start with ["Bearer "] the function returns [null], and both
    [/api/me] and [/api/discord/guilds] answer 401 without contacting the
    provider. *)
Theorem resolve_bearer (s : store) (now : Z) :
  (∀ t, received (Some ("Bearer " +:+ t)) →
     let r := resolveDiscordTokenFromAuthHeader s (Some ("Bearer " +:+ t)) now in
     (∀ sess, sessions s !! t = Some sess → now < Session.exp sess →
              r = Some (Session.discord_access_token sess))
     ∧ ((¬ ∃ sess, sessions s !! t = Some sess ∧ now < Session.exp sess) →
        r = Some t))
  ∧ (∀ h, match h with
          | Some x => JS.startsWith "Bearer " x = false
          | None => True
          end →
       resolveDiscordTokenFromAuthHeader s h now = None
       ∧ ∀ out,
           api_me s h now out
           = {| sent := {| status := 401;
                           body := Json (JS.Obj [("error", JS.Str "missing_token")]) |};
                after := s; calls := [] |}
           ∧ api_discord_guilds s h now out
             = {| sent := {| status := 401;
                             body := Json (JS.Obj [("error",
                                                    JS.Str "missing_bearer_token")]) |};
                  after := s; calls := [] |}).
Proof.
  split.
  - intros t Ht%received_bearer r. subst r. rewrite (resolve_with_token s t now Ht). split.
    + intros sess -> Hlt. apply Z.ltb_lt in Hlt. now rewrite Hlt.
    + intros Hno. destruct (sessions s !! t) as [sess |]; [| reflexivity].
      destruct (Z.ltb_spec now (Session.exp sess)) as [Hlt | _]; [| reflexivity].
      exfalso. apply Hno. eauto.
  - intros h Hh.
    assert (Hnone : resolveDiscordTokenFromAuthHeader s h now = None).
    { apply resolve_tokenless. destruct h as [x |]; [now left | exact I]. }
    split; [exact Hnone |]. intros out.
    unfold api_me, api_discord_guilds, proxy. now rewrite Hnone.
Qed.

(** [resolve_bearer] on the paired store: the session token resolves to
    the provider token, and a header of another scheme resolves to
    [null]. *)
Lemma resolve_bearer_witness :
  resolveDiscordTokenFromAuthHeader paired (Some "Bearer sess_k3x9qz") 5000 = Some "tok"
  ∧ resolveDiscordTokenFromAuthHeader paired (Some "Basic dXNlcg") 5000 = None.
Proof.
  destruct (resolve_bearer paired 5000) as [Hsome Hnone]. split.
  - refine (proj1 (Hsome "sess_k3x9qz" _)
              {| Session.userId := JS.Str "42"; Session.discord_access_token := "tok";
                 Session.exp := 2592002000; Session.device_name := JS.Str "Windows" |}
              _ _).
    + split; reflexivity.
    + vm_compute. reflexivity.
    + reflexivity.
  - refine (proj1 (Hnone (Some "Basic dXNlcg") _)). reflexivity.
Defined.

(** C9, as amended.  In a store the server can be in, a bearer token that
    is a key of [sessions] but whose expiry is not after the current time
    resolves to the session token itself.  [/api/me] and
    [/api/discord/guilds] then send the provider one request, with that
    session token as its bearer and not the provider token of the session,
    and the 401 of their own test of the token, with error [missing_token]
    or [missing_bearer_token], is not the reply.  When the provider does
    not accept the token, the reply has the provider's status, 401
    included, with error [discord_error] and the provider's text. *)
Theorem expired_session_forwarded (s : store) (t : string) (sess : Session.row) (now : Z) :
  reachable s →
  sessions s !! t = Some sess →
  Session.exp sess <= now →
  let h := Some ("Bearer " +:+ t) in
  resolveDiscordTokenFromAuthHeader s h now = Some t
  ∧ ∀ out,
      calls (api_me s h now out)
      = [{| url := "https://discord.com/api/users/@me"; method := "GET";
            bearer := Some (JS.Str t); form := [] |}]
      ∧ calls (api_discord_guilds s h now out)
        = [{| url := "https://discord.com/api/users/@me/guilds"; method := "GET";
              bearer := Some (JS.Str t); form := [] |}]
      ∧ sent (api_me s h now out)
        ≠ {| status := 401; body := Json (JS.Obj [("error", JS.Str "missing_token")]) |}
      ∧ sent (api_discord_guilds s h now out)
        ≠ {| status := 401;
             body := Json (JS.Obj [("error", JS.Str "missing_bearer_token")]) |}
      ∧ ∀ r, out = Answered r → ok r = false →
          let relayed :=
            {| status := resp_status r;
               body := Json (JS.Obj [("error", JS.Str "discord_error");
                                     ("body", JS.Str (text r))]) |} in
          sent (api_me s h now out) = relayed
          ∧ sent (api_discord_guilds s h now out) = relayed.
Proof.
  intros Hreach Hsess Hexp h.
  assert (Ht : t ≠ "").
  { apply sess_prefix_nonempty. eapply (proj1 (reachable_wf s Hreach)); eassumption. }
  assert (Hres : resolveDiscordTokenFromAuthHeader s h now = Some t).
  { subst h. rewrite (resolve_with_token s t now Ht), Hsess.
    destruct (Z.ltb_spec now (Session.exp sess)); [lia | reflexivity]. }
  split; [exact Hres |]. intros out.
  unfold api_me, api_discord_guilds, proxy. rewrite Hres, (eqb_empty_false t Ht).
  destruct out as [| r].
  - do 4 (split; [reflexivity || discriminate |]). intros r' [=].
  - destruct (ok r) eqn:Hok; cbn [negb];
      do 4 (split; [reflexivity || discriminate |]);
      intros r' [= <-] Hok'; [congruence | split; reflexivity].
Qed.

(** [expired_session_forwarded] on the paired store, 31 days later. *)
Lemma expired_session_forwarded_witness :
  resolveDiscordTokenFromAuthHeader paired (Some "Bearer sess_k3x9qz") 2678400000
  = Some "sess_k3x9qz".
Proof.
  refine (proj1 (expired_session_forwarded paired "sess_k3x9qz"
            {| Session.userId := JS.Str "42"; Session.discord_access_token := "tok";
               Session.exp := 2592002000; Session.device_name := JS.Str "Windows" |}
            2678400000 _ _ _)).
  - apply reachable_exec, reach_initial.
  - vm_compute. reflexivity.
  - cbn. lia.
Defined.

(** C9, as stated, fails in its last words: the provider does not know the
    session token and answers 401, and the route answers 401 in turn.  On
    the paired store, 31 days later: *)
Lemma expired_session_answered_401_counterexample :
  let unknown := {| resp_status := 401;
                    text := "{" +:+ quoted "message" +:+ ":" +:+ quoted "401: Unauthorized"
                            +:+ "}";
                    json := Some (JS.Obj [("message", JS.Str "401: Unauthorized")]) |} in
  let h := Some "Bearer sess_k3x9qz" in
  (∃ sess, sessions paired !! "sess_k3x9qz" = Some sess ∧ Session.exp sess <= 2678400000)
  ∧ resolveDiscordTokenFromAuthHeader paired h 2678400000 = Some "sess_k3x9qz"
  ∧ status (sent (api_me paired h 2678400000 (Answered unknown))) = 401
  ∧ status (sent (api_discord_guilds paired h 2678400000 (Answered unknown))) = 401.
Proof.
  intros unknown h. split.
  - eexists. split; [vm_compute; reflexivity |]. cbn. lia.
  - repeat split; vm_compute; reflexivity.
Qed.

(** ** Sessions are reusable *)

Lemma proxy_exec s es : Forall is_proxy es → exec s es = s.
Proof.
  induction 1 as [| e es He _ IH]; [reflexivity |].
  cbn. destruct e; try contradiction; cbn [step];
    unfold api_me, api_discord_guilds; rewrite proxy_after; exact IH.
Qed.

(** C4.  A [GET /api/me] or [GET /api/discord/guilds] request leaves the
    store as it found it, whatever its header and whatever the provider
    answers, so after any number of such requests a session is still
    stored with the same record, and at every time before its expiry its
    token resolves to the provider access token stored in it. *)
Theorem session_reusable (s : store) (t : string) (sess : Session.row) :
  reachable s →
  sessions s !! t = Some sess →
  (∀ h now out,
     after (api_me s h now out) = s ∧ after (api_discord_guilds s h now out) = s)
  ∧ ∀ es, Forall is_proxy es →
      exec s es = s
      ∧ sessions (exec s es) !! t = Some sess
      ∧ ∀ now, now < Session.exp sess →
          resolveDiscordTokenFromAuthHeader (exec s es) (Some ("Bearer " +:+ t)) now
          = Some (Session.discord_access_token sess).
Proof.
  intros Hreach Hsess. split.
  - intros h now out. unfold api_me, api_discord_guilds. now rewrite !proxy_after.
  - intros es Hes. rewrite (proxy_exec s es Hes).
    split; [reflexivity |]. split; [exact Hsess |].
    intros now Hnow.
    assert (Ht : t ≠ "").
    { apply sess_prefix_nonempty. eapply (proj1 (reachable_wf s Hreach)); eassumption. }
    rewrite (resolve_with_token s t now Ht), Hsess.
    apply Z.ltb_lt in Hnow. now rewrite Hnow.
Qed.

(** [session_reusable] on the paired store, for two requests with the
    session token, one of which the provider refuses. *)
Lemma session_reusable_witness :
  let h := Some "Bearer sess_k3x9qz" in
  let es := [Me h 3000 (Answered sample_user);
             Guilds h 4000 (Answered {| resp_status := 429; text := ""; json := None |})] in
  exec paired es = paired
  ∧ resolveDiscordTokenFromAuthHeader (exec paired es) h 5000 = Some "tok".
Proof.
  intros h es.
  pose (sess := {| Session.userId := JS.Str "42"; Session.discord_access_token := "tok";
                   Session.exp := 2592002000; Session.device_name := JS.Str "Windows" |}).
  assert (Hreach : reachable paired) by apply reachable_exec, reach_initial.
  assert (Hsess : sessions paired !! "sess_k3x9qz" = Some sess) by (vm_compute; reflexivity).
  destruct (session_reusable paired "sess_k3x9qz" sess Hreach Hsess) as [_ H].
  destruct (H es) as (Hsame & _ & Hres).
  - subst es. repeat constructor.
  - split; [exact Hsame |]. apply (Hres 5000). reflexivity.
Defined.

(** ** The clean-up *)

Lemma cleanup_lookup (s : store) (now : Z) (k : string) :
  sessions (cleanup s now) !! k
  = (v ← sessions s !! k; if Session.exp v <=? now then None else Some v)
  ∧ deviceCodes (cleanup s now) !! k
    = (v ← deviceCodes s !! k;
       if (Device.exp v <=? now) || Device.used v then None else Some v).
Proof. split; apply delete_where_lookup. Qed.

(** C5.  One run of the clean-up removes from [sessions] exactly the
    entries whose expiry is less than or equal to the current time, removes
    from [deviceCodes] exactly the entries whose expiry is less than or
    equal to the current time or whose [used] flag is set, and leaves
    every other entry of both maps as it was; it adds nothing. *)
Theorem cleanup_exact (s : store) (now : Z) :
  let s' := cleanup s now in
  (∀ k v, sessions s !! k = Some v →
     (Session.exp v <= now → sessions s' !! k = None)
     ∧ (now < Session.exp v → sessions s' !! k = Some v))
  ∧ (∀ k, sessions s !! k = None → sessions s' !! k = None)
  ∧ (∀ k v, deviceCodes s !! k = Some v →
       (Device.exp v <= now ∨ Device.used v = true → deviceCodes s' !! k = None)
       ∧ (now < Device.exp v → Device.used v = false → deviceCodes s' !! k = Some v))
  ∧ (∀ k, deviceCodes s !! k = None → deviceCodes s' !! k = None).
Proof.
  intros s'. subst s'. split; [| split; [| split]].
  - intros k v Hk. rewrite (proj1 (cleanup_lookup s now k)), Hk. cbn.
    destruct (Z.leb_spec (Session.exp v) now); split; intros; (reflexivity || lia).
  - intros k Hk. now rewrite (proj1 (cleanup_lookup s now k)), Hk.
  - intros k v Hk. rewrite (proj2 (cleanup_lookup s now k)), Hk. cbn. split.
    + intros Hdead. destruct (Z.leb_spec (Device.exp v) now); [reflexivity |].
      destruct Hdead as [Hexp | ->]; [lia | reflexivity].
    + intros Hexp ->. destruct (Z.leb_spec (Device.exp v) now); [lia | reflexivity].
  - intros k Hk. now rewrite (proj2 (cleanup_lookup s now k)), Hk.
Qed.

(** [cleanup_exact] on the paired store at time 700000: the claimed code
    goes, the session stays. *)
Lemma cleanup_exact_witness :
  deviceCodes (cleanup paired 700000) !! "AAAA-AAAA-AAAA" = None
  ∧ sessions (cleanup paired 700000) !! "sess_k3x9qz"
    = Some {| Session.userId := JS.Str "42"; Session.discord_access_token := "tok";
              Session.exp := 2592002000; Session.device_name := JS.Str "Windows" |}.
Proof.
  destruct (cleanup_exact paired 700000) as (Hs & _ & Hd & _). split.
  - refine (proj1 (Hd "AAAA-AAAA-AAAA"
              {| Device.userId := JS.Str "42"; Device.discord_access_token := "tok";
                 Device.exp := 601000; Device.used := true |} _) _).
    + vm_compute. reflexivity.
    + right. reflexivity.
  - refine (proj2 (Hs "sess_k3x9qz" _ _) _).
    + vm_compute. reflexivity.
    + reflexivity.
Defined.

(** ** Provider failures *)




(** ** What the maps hold *)

(** Closes the case of a step that left both maps as they were. *)
Ltac kept := split; intros ? ? ?; left; assumption.

(** C7.  Whatever the server handles, an entry found in [sessions]
    afterwards was there before or has just been created by a claim: its
    user id and provider access token are those of the claimed device-code
    entry, its expiry is the time of the claim plus 30 days, and its
    device label is the request's [device_name], or ["Windows"] when the
    request has none.  An entry found in [deviceCodes] afterwards was
    there before, or is an entry that a claim has just marked used, or has
    just been issued by a pairing start: it then holds the id of the user
    the provider reported for the caller's token, that token, the time of
    issuance plus 10 minutes, and [used = false]. *)
Theorem stored_entries (s : store) (e : event) :
  (∀ k v, sessions (step s e) !! k = Some v →
     sessions s !! k = Some v ∨ session_created s e k v)
  ∧ (∀ k v, deviceCodes (step s e) !! k = Some v →
       deviceCodes s !! k = Some v ∨ code_issued e k v ∨ code_marked s e k v).
Proof.
  destruct e; cbn [step].
  - kept.
  - rewrite auth_discord_after. kept.
  - destruct (device_start_after s authorization me_out rnd now)
      as [-> | (row & Hissued & ->)]; [kept |].
    split; intros k v; cbn; [now left |].
    rewrite lookup_insert. case_decide as Hk.
    + intros [= <-]. subst k. right. left. exact Hissued.
    + now left.
  - destruct (device_claim_after s req_body now_check me_out now_issue frac1 frac2)
      as [-> | (code & row & sess & Hmarked & Hcreated & _ & _ & ->)];
      [kept |].
    split; intros k v; cbn; rewrite lookup_insert; case_decide as Hk;
      try (now left); intros [= <-]; subst k; right; [exact Hcreated | right; exact Hmarked].
  - unfold api_me. rewrite proxy_after. kept.
  - unfold api_discord_guilds. rewrite proxy_after. kept.
  - split; intros k v [Hk _]%delete_where_Some; left; exact Hk.
Qed.

(** [stored_entries] for the two requests of the sample pairing. *)
Lemma stored_entries_witness :
  code_issued sample_start "AAAA-AAAA-AAAA"
    {| Device.userId := JS.Str "42"; Device.discord_access_token := "tok";
       Device.exp := 601000; Device.used := false |}
  ∧ session_created (step initial sample_start) sample_claim "sess_k3x9qz"
      {| Session.userId := JS.Str "42"; Session.discord_access_token := "tok";
         Session.exp := 2592002000; Session.device_name := JS.Str "Windows" |}.
Proof.
  split.
  - destruct (proj2 (stored_entries initial sample_start) "AAAA-AAAA-AAAA"
                {| Device.userId := JS.Str "42"; Device.discord_access_token := "tok";
                   Device.exp := 601000; Device.used := false |})
      as [Hold | [Hnew | Hmark]].
    + vm_compute. reflexivity.
    + discriminate Hold.
    + exact Hnew.
    + inversion Hmark.
  - destruct (proj1 (stored_entries (step initial sample_start) sample_claim) "sess_k3x9qz"
                {| Session.userId := JS.Str "42"; Session.discord_access_token := "tok";
                   Session.exp := 2592002000; Session.device_name := JS.Str "Windows" |})
      as [Hold | Hnew].
    + vm_compute. reflexivity.
    + discriminate Hold.
    + exact Hnew.
Defined.

(** ** Claiming and the provider *)

Lemma device_claim_success s req_body code row now_check meR me u now_issue f1 f2 :
  JS.prop (body_of req_body) "device_code" = Some (JS.Str code) →
  code ≠ "" →
  deviceCodes s !! code = Some row →
  Device.used row = false →
  now_check <= Device.exp row →
  ok meR = true →
  json meR = Some me →
  user_view me = Some u →
  let r := device_claim s req_body now_check (Answered meR) now_issue f1 f2 in
  status (sent r) = 200
  ∧ (∃ sess, sessions (after r) !! genSessionToken f1 f2 = Some sess
             ∧ Session.discord_access_token sess = Device.discord_access_token row)
  ∧ deviceCodes (after r) !! code = Some (Device.mark_used row).
Proof.
  intros Hdc Hcode Hrow Hused Hexp Hok Hjson Hview r. subst r.
  unfold device_claim. rewrite Hdc.
  destruct (body_of_prop req_body "device_name") as [dn ->].
  cbn [JS.truthy negb Map_get Map_alter]. rewrite (eqb_empty_false code Hcode). cbn [negb].
  rewrite Hrow, Hused. destruct (Z.ltb_spec (Device.exp row) now_check); [lia |].
  rewrite Hok, Hjson, Hview. cbn.
  split; [reflexivity |]. split.
  - eexists. rewrite lookup_insert_eq. split; reflexivity.
  - now rewrite lookup_alter_eq, Hrow.
Qed.

(** C8.  In a store the server can be in, when the provider refuses the
    user lookup of a claim for a stored, unused, unexpired code, the reply
    is 401 [discord_unauthorized] and the store is left as it was: the
    entry is still unused and [sessions] is unchanged.  The same code can
    therefore be claimed afterwards, as soon as the provider accepts the
    lookup and the code has not expired. *)
Theorem claim_atomic_on_refusal (s : store) (req_body : JS.value) (code : string)
    (row : Device.row) (now_check : Z) (meR : response) (now_issue : Z)
    (frac1 frac2 : string) :
  reachable s →
  JS.prop (body_of req_body) "device_code" = Some (JS.Str code) →
  deviceCodes s !! code = Some row →
  Device.used row = false →
  now_check <= Device.exp row →
  ok meR = false →
  let r := device_claim s req_body now_check (Answered meR) now_issue frac1 frac2 in
  sent r = {| status := 401;
              body := Json (JS.Obj [("error", JS.Str "discord_unauthorized");
                                    ("details", JS.Str (text meR))]) |}
  ∧ after r = s
  ∧ deviceCodes (after r) !! code = Some row
  ∧ sessions (after r) = sessions s
  ∧ ∀ later meR' me u issue' g1 g2,
      later <= Device.exp row →
      ok meR' = true → json meR' = Some me → user_view me = Some u →
      let r' := device_claim (after r) req_body later (Answered meR') issue' g1 g2 in
      status (sent r') = 200
      ∧ is_Some (sessions (after r') !! genSessionToken g1 g2).
Proof.
  intros Hreach Hdc Hrow Hused Hexp Hok r.
  assert (Hcode : code ≠ "") by (eapply (proj2 (reachable_wf s Hreach)); eassumption).
  assert (Hr : r = {| sent := {| status := 401;
                                 body := Json (JS.Obj [("error", JS.Str "discord_unauthorized");
                                                       ("details", JS.Str (text meR))]) |};
                      after := s;
                      calls := [get_users_me (JS.Str (Device.discord_access_token row))] |}).
  { subst r. unfold device_claim. rewrite Hdc.
    destruct (body_of_prop req_body "device_name") as [dn ->].
    cbn [JS.truthy negb Map_get]. rewrite (eqb_empty_false code Hcode). cbn [negb].
    rewrite Hrow, Hused. destruct (Z.ltb_spec (Device.exp row) now_check); [lia |].
    now rewrite Hok. }
  rewrite Hr. cbn [sent after]. repeat split; try assumption.
  - now apply (device_claim_success s req_body code row later meR' me u issue' g1 g2).
  - destruct (device_claim_success s req_body code row later meR' me u issue' g1 g2)
      as (_ & (sess & -> & _) & _); eauto.
Qed.

(** [claim_atomic_on_refusal] on the store after the sample start: the
    provider first answers 401, then accepts. *)
Lemma claim_atomic_on_refusal_witness :
  let s := step initial sample_start in
  let refused := {| resp_status := 401; text := "401: Unauthorized"; json := None |} in
  let r := device_claim s sample_body 2000 (Answered refused) 2000 "k3x" "9qz" in
  status (sent r) = 401
  ∧ after r = s
  ∧ status (sent (device_claim (after r) sample_body 3000 (Answered sample_user) 3000 "a" "b"))
    = 200.
Proof.
  intros s refused r.
  assert (Hreach : reachable s) by (apply reach_step, reach_initial).
  destruct (claim_atomic_on_refusal s sample_body "AAAA-AAAA-AAAA"
              {| Device.userId := JS.Str "42"; Device.discord_access_token := "tok";
                 Device.exp := 601000; Device.used := false |}
              2000 refused 2000 "k3x" "9qz" Hreach eq_refl)
    as (Hsent & Hafter & _ & _ & Hlater).
  - vm_compute. reflexivity.
  - reflexivity.
  - cbn. lia.
  - reflexivity.
  - split; [fold r in Hsent; now rewrite Hsent |]. split; [exact Hafter |].
    refine (proj1 (Hlater 3000 sample_user _ _ 3000 "a" "b" _ eq_refl eq_refl eq_refl)).
    cbn. lia.
Defined.

(** ** Single use *)

Lemma async_finish_state h p m n f1 f2 :
  (Async.claim_finish h p m n f1 f2).2 = h
  ∨ ∃ row sess,
      Async.objects h !! Async.held p = Some row
      ∧ (Async.claim_finish h p m n f1 f2).2
        = {| Async.objects := <[Async.held p := Device.mark_used row]> (Async.objects h);
             Async.code_refs := Async.code_refs h;
             Async.session_map := <[genSessionToken f1 f2 := sess]> (Async.session_map h) |}.
Proof.
  unfold Async.claim_finish.
  destruct (Async.objects h !! Async.held p) as [row |]; [| now left].
  destruct m as [| meR]; [now left |].
  destruct (negb (ok meR)); [now left |].
  destruct (json meR) as [me |]; [| now left].
  right. exists row. eexists. split; [reflexivity |].
  destruct (user_view me); reflexivity.
Qed.

Lemma async_finish_200 h p m n f1 f2 :
  status (Async.claim_finish h p m n f1 f2).1 = 200 →
  ∃ row sess,
    Async.objects h !! Async.held p = Some row
    ∧ (Async.claim_finish h p m n f1 f2).2
      = {| Async.objects := <[Async.held p := Device.mark_used row]> (Async.objects h);
           Async.code_refs := Async.code_refs h;
           Async.session_map := <[genSessionToken f1 f2 := sess]> (Async.session_map h) |}.
Proof.
  unfold Async.claim_finish.
  destruct (Async.objects h !! Async.held p) as [row |]; [| discriminate].
  destruct m as [| meR]; [discriminate |].
  destruct (negb (ok meR)); [discriminate |].
  destruct (json meR) as [me |]; [| discriminate].
  destruct (user_view me); [| discriminate].
  intros _. exists row. eexists. split; reflexivity.
Qed.

Lemma async_start_state h a m rnd now :
  Async.device_start h a m rnd now = h
  ∨ ∃ row,
      Device.used row = false
      ∧ Async.device_start h a m rnd now
        = {| Async.objects := Async.objects h ++ [row];
             Async.code_refs :=
               <[genDeviceCode 12 rnd := length (Async.objects h)]> (Async.code_refs h);
             Async.session_map := Async.session_map h |}.
Proof.
  unfold Async.device_start. cbv zeta.
  destruct (String.eqb (bearer_token a) ""); [now left |].
  destruct m as [| meR]; [now left |].
  destruct (negb (ok meR)); [now left |].
  destruct (json meR) as [me |]; [| now left].
  destruct (JS.prop me "id") as [id |]; [| now left].
  right. eexists. split; [| reflexivity]. reflexivity.
Qed.

Lemma async_step_wf h e : Async.wf h → Async.wf (Async.step h e).
Proof.
  intros Hwf. destruct e as [| p m n f1 f2 | a m rnd now | now]; cbn [Async.step].
  - exact Hwf.
  - destruct (async_finish_state h p m n f1 f2) as [-> | (row & sess & _ & ->)];
      [exact Hwf |].
    intros k a Hk. cbn in *. rewrite length_insert. now apply (Hwf k).
  - destruct (async_start_state h a m rnd now) as [-> | (row & _ & ->)]; [exact Hwf |].
    intros k a'. cbn. rewrite length_app, lookup_insert. cbn.
    case_decide; [intros [= <-]; lia |]. intros Hk. apply Hwf in Hk. lia.
  - intros k a [Hk _]%delete_where_Some. now apply (Hwf k).
Qed.

Lemma async_exec_wf es : ∀ h, Async.wf h → Async.wf (Async.exec h es).
Proof.
  induction es as [| e es IH]; intros h Hwf; [exact Hwf |].
  cbn. apply IH. now apply async_step_wf.
Qed.

(** A used object under the code, or none: kept by every step that does
    not put a new object under the code. *)
Lemma async_step_spent code h e :
  Async.wf h → Async.draws_other code e → Async.spent code h →
  Async.spent code (Async.step h e).
Proof.
  intros Hwf He Hs. destruct e as [| p m n f1 f2 | a m rnd now | now]; cbn [Async.step].
  - exact Hs.
  - destruct (async_finish_state h p m n f1 f2) as [-> | (row & sess & Hrow & ->)];
      [exact Hs |].
    intros a x. cbn. intros Ha.
    destruct (decide (a = Async.held p)) as [-> | Hne].
    + rewrite list_lookup_insert_eq by (eapply lookup_lt_Some; eassumption).
      now intros [= <-].
    + rewrite list_lookup_insert_ne by congruence. now apply Hs.
  - destruct (async_start_state h a m rnd now) as [-> | (row & _ & ->)]; [exact Hs |].
    intros a' x. cbn. rewrite lookup_insert_ne by exact He. intros Ha.
    rewrite lookup_app_l by now apply (Hwf code). now apply Hs.
  - intros a x [Ha _]%delete_where_Some. cbn. now apply Hs.
Qed.

Lemma async_exec_spent code es : ∀ h,
  Async.wf h → Forall (Async.draws_other code) es → Async.spent code h →
  Async.spent code (Async.exec h es).
Proof.
  induction es as [| e es IH]; intros h Hwf Hes Hs; [exact Hs |].
  inversion_clear Hes. cbn. apply IH; try assumption.
  - now apply async_step_wf.
  - now apply async_step_spent.
Qed.

(** While no start draws the code, the map holds the object a waiting
    claim has read under it, or nothing, and that object stays. *)
Lemma async_step_held code a h e :
  Async.draws_other code e →
  (∀ a', Async.code_refs h !! code = Some a' → a' = a) →
  ∀ a', Async.code_refs (Async.step h e) !! code = Some a' → a' = a.
Proof.
  intros He Hh. destruct e as [| p m n f1 f2 | au m rnd now | now]; cbn [Async.step].
  - exact Hh.
  - destruct (async_finish_state h p m n f1 f2) as [-> | (row & sess & _ & ->)]; exact Hh.
  - destruct (async_start_state h au m rnd now) as [-> | (row & _ & ->)]; [exact Hh |].
    intros a'. cbn. rewrite lookup_insert_ne by exact He. apply Hh.
  - intros a' [Ha _]%delete_where_Some. now apply Hh.
Qed.

Lemma async_exec_held code a es : ∀ h,
  Forall (Async.draws_other code) es →
  (∀ a', Async.code_refs h !! code = Some a' → a' = a) →
  ∀ a', Async.code_refs (Async.exec h es) !! code = Some a' → a' = a.
Proof.
  induction es as [| e es IH]; intros h Hes Hh; [exact Hh |].
  inversion_clear Hes. cbn. apply IH; [assumption |]. now apply async_step_held.
Qed.

Lemma async_begin_awaiting h req_body code now_check p c :
  JS.prop (body_of req_body) "device_code" = Some (JS.Str code) →
  Async.claim_begin h req_body now_check = Async.Awaiting p c →
  code ≠ "" ∧ Async.code_refs h !! code = Some (Async.held p).
Proof.
  intros Hdc. unfold Async.claim_begin, Async.get. rewrite Hdc.
  destruct (body_of_prop req_body "device_name") as [dn ->].
  cbn [JS.truthy Map_get].
  destruct (String.eqb code "") eqn:Hne; cbn [negb]; [discriminate |].
  apply String.eqb_neq in Hne.
  destruct (Async.code_refs h !! code) as [a |]; cbn; [| discriminate].
  destruct (Async.objects h !! a) as [row |]; cbn; [| discriminate].
  destruct (Device.used row); [discriminate |].
  destruct (Device.exp row <? now_check); [discriminate |].
  intros [= <- _]. auto.
Qed.

Lemma async_begin_spent code h req_body now_check :
  code ≠ "" →
  Async.wf h →
  Async.spent code h →
  JS.prop (body_of req_body) "device_code" = Some (JS.Str code) →
  Async.claim_begin h req_body now_check
  = Async.Replied
      {| status := 400;
         body := Json (JS.Obj [("error",
                   JS.Str (match Async.code_refs h !! code with
                           | Some _ => "already_used"
                           | None => "invalid_code"
                           end))]) |}.
Proof.
  intros Hcode Hwf Hs Hdc. unfold Async.claim_begin, Async.get. rewrite Hdc.
  destruct (body_of_prop req_body "device_name") as [dn ->].
  cbn [JS.truthy Map_get]. rewrite (eqb_empty_false code Hcode). cbn [negb].
  destruct (Async.code_refs h !! code) as [a |] eqn:Ha; cbn; [| reflexivity].
  destruct (lookup_lt_is_Some_2 _ _ (Hwf code a Ha)) as [row Hrow].
  rewrite Hrow. cbn. now rewrite (Hs a row Ha Hrow).
Qed.

(** A claim that is resumed at once, nothing else running in between, is
    the [device_claim] of the store that [Async.view] shows; pairing starts
    and the clean-up act on that store as [device_start] and [cleanup]
    do. *)

Lemma async_view_lookup h k :
  deviceCodes (Async.view h) !! k
  = match Async.code_refs h !! k with
    | Some a => Async.objects h !! a
    | None => None
    end.
Proof. unfold Async.view. cbn. rewrite lookup_omap. now destruct (Async.code_refs h !! k). Qed.

Lemma async_view_marked h code a row sess tok :
  Async.unshared h →
  Async.code_refs h !! code = Some a →
  Async.objects h !! a = Some row →
  Async.view {| Async.objects := <[a := Device.mark_used row]> (Async.objects h);
                Async.code_refs := Async.code_refs h;
                Async.session_map := <[tok := sess]> (Async.session_map h) |}
  = {| deviceCodes := alter Device.mark_used code (deviceCodes (Async.view h));
       sessions := <[tok := sess]> (sessions (Async.view h)) |}.
Proof.
  intros Hun Ha Hrow.
  set (h' := {| Async.objects := <[a := Device.mark_used row]> (Async.objects h);
                Async.code_refs := Async.code_refs h;
                Async.session_map := <[tok := sess]> (Async.session_map h) |}).
  transitivity {| deviceCodes := deviceCodes (Async.view h');
                  sessions := sessions (Async.view h') |}; [reflexivity |].
  f_equal. apply map_eq. intros k.
  rewrite lookup_alter, !async_view_lookup. subst h'. cbn [Async.objects Async.code_refs].
  case_decide as Hk.
  - subst k. rewrite Ha. cbn.
    rewrite list_lookup_insert_eq by (eapply lookup_lt_Some; eassumption).
    now rewrite Hrow.
  - destruct (Async.code_refs h !! k) as [a' |] eqn:Ha'; [| reflexivity]. cbn.
    rewrite list_lookup_insert_ne; [reflexivity |].
    intros <-. apply Hk. symmetry. exact (Hun _ _ _ Ha' Ha).
Qed.

Lemma async_claim_refines h req_body now_check me_out now_issue f1 f2 :
  Async.unshared h →
  device_claim (Async.view h) req_body now_check me_out now_issue f1 f2
  = match Async.claim_begin h req_body now_check with
    | Async.Replied r => {| sent := r; after := Async.view h; calls := [] |}
    | Async.Awaiting p c =>
        let done := Async.claim_finish h p me_out now_issue f1 f2 in
        {| sent := done.1; after := Async.view done.2; calls := [c] |}
    end.
Proof.
  intros Hun. unfold device_claim, Async.claim_begin.
  destruct (JS.prop (body_of req_body) "device_code") as [dc |]; [| reflexivity].
  destruct (JS.prop (body_of req_body) "device_name") as [dn |]; [| reflexivity].
  destruct (negb (JS.truthy dc)); [reflexivity |].
  unfold Async.get.
  destruct dc as [| | b | n | code | items | fs]; try reflexivity.
  cbn [Map_get Map_alter]. rewrite async_view_lookup.
  destruct (Async.code_refs h !! code) as [a |] eqn:Ha; [| reflexivity]. cbn.
  destruct (Async.objects h !! a) as [row |] eqn:Hrow; [| reflexivity]. cbn.
  destruct (Device.used row); [reflexivity |].
  destruct (Device.exp row <? now_check); [reflexivity |].
  unfold Async.claim_finish. cbn [Async.held Async.label]. rewrite Hrow.
  destruct me_out as [| meR]; [reflexivity |].
  cbv zeta.
  destruct (negb (ok meR)); [reflexivity |].
  destruct (json meR) as [me |]; [| reflexivity].
  rewrite <- (async_view_marked h code a row _ _ Hun Ha Hrow).
  destruct (user_view me); reflexivity.
Qed.

Lemma async_start_view h a m rnd now :
  Async.wf h →
  Async.view (Async.device_start h a m rnd now)
  = after (device_start (Async.view h) a m rnd now).
Proof.
  intros Hwf. unfold Async.device_start, device_start. cbv zeta.
  destruct (String.eqb (bearer_token a) ""); [reflexivity |].
  destruct m as [| meR]; [reflexivity |].
  destruct (negb (ok meR)); [reflexivity |].
  destruct (json meR) as [me |]; [| reflexivity].
  destruct (JS.prop me "id") as [id |]; [| reflexivity].
  cbn [after respond].
  match goal with |- Async.view ?x = _ => set (h' := x) end.
  transitivity {| deviceCodes := deviceCodes (Async.view h');
                  sessions := sessions (Async.view h') |}; [reflexivity |].
  f_equal. apply map_eq. intros k.
  rewrite lookup_insert, !async_view_lookup. subst h'.
  cbn [Async.objects Async.code_refs]. rewrite lookup_insert.
  case_decide as Hk.
  - now rewrite lookup_app_r, Nat.sub_diag by lia.
  - destruct (Async.code_refs h !! k) as [a' |] eqn:Ha'; [| reflexivity].
    now rewrite lookup_app_l by now apply (Hwf k).
Qed.

Lemma async_cleanup_view h now :
  Async.view (Async.cleanup h now) = cleanup (Async.view h) now.
Proof.
  transitivity {| deviceCodes := deviceCodes (Async.view (Async.cleanup h now));
                  sessions := sessions (Async.view (Async.cleanup h now)) |};
    [reflexivity |].
  unfold cleanup. f_equal. apply map_eq. intros k.
  rewrite async_view_lookup, !delete_where_lookup, async_view_lookup.
  cbn [Async.cleanup Async.objects Async.code_refs]. rewrite delete_where_lookup.
  destruct (Async.code_refs h !! k) as [a |]; [| reflexivity]. cbn.
  destruct (Async.objects h !! a) as [row |] eqn:Hrow; cbn; [| now rewrite Hrow].
  destruct ((Device.exp row <=? now) || Device.used row); [reflexivity |]. exact Hrow.
Qed.

Lemma async_step_unshared h e :
  Async.wf h → Async.unshared h → Async.unshared (Async.step h e).
Proof.
  intros Hwf Hun. destruct e as [| p m n f1 f2 | a m rnd now | now]; cbn [Async.step].
  - exact Hun.
  - destruct (async_finish_state h p m n f1 f2) as [-> | (row & sess & _ & ->)]; exact Hun.
  - destruct (async_start_state h a m rnd now) as [-> | (row & _ & ->)]; [exact Hun |].
    intros k1 k2 a'. cbn. rewrite !lookup_insert.
    repeat case_decide; subst; try congruence.
    + intros [= <-] Hk2%Hwf. lia.
    + intros Hk1%Hwf [= <-]. lia.
    + apply Hun.
  - intros k1 k2 a' [H1 _]%delete_where_Some [H2 _]%delete_where_Some.
    exact (Hun _ _ _ H1 H2).
Qed.

Lemma async_exec_unshared es : ∀ h,
  Async.wf h → Async.unshared h → Async.unshared (Async.exec h es).
Proof.
  induction es as [| e es IH]; intros h Hwf Hun; [exact Hun |].
  cbn. apply IH; [now apply async_step_wf | now apply async_step_unshared].
Qed.

(** Every state the server reaches has the two properties that the
    next theorem asks of its state. *)
Lemma async_reached (es : list Async.event) :
  Async.wf (Async.exec Async.initial es)
  ∧ Async.unshared (Async.exec Async.initial es).
Proof.
  assert (Hwf : Async.wf Async.initial).
  { intros k a. cbn. now rewrite lookup_empty. }
  assert (Hun : Async.unshared Async.initial).
  { intros k1 k2 a. cbn. now rewrite lookup_empty. }
  split; [now apply async_exec_wf | now apply async_exec_unshared].
Qed.

(** C3, as amended.  Take a claim of a code that waits for the provider,
    let anything happen meanwhile, other claims finishing included, and
    let it then succeed.  From then on the entry under the code, if there
    still is one, has its [used] flag set, and every claim of that code
    that starts afterwards, whatever else the server handles in between, is
    answered 400 before it asks the provider or writes anything, so it
    creates no session: the error is [already_used] while the entry is
    still stored and [invalid_code] once the clean-up has removed it.  All
    this as long as no pairing start draws the same code again.  Nothing is
    said of a claim that was already waiting when the first one
    succeeded. *)
Theorem device_code_single_use (h : Async.state) (req_body : JS.value)
    (code : string) (now_check : Z) (p : Async.pending) (c : request)
    (es1 : list Async.event) (me_out : outcome) (now_issue : Z)
    (frac1 frac2 : string) :
  Async.wf h →
  Async.unshared h →
  JS.prop (body_of req_body) "device_code" = Some (JS.Str code) →
  Async.claim_begin h req_body now_check = Async.Awaiting p c →
  Forall (Async.draws_other code) es1 →
  let done := Async.claim_finish (Async.exec h es1) p me_out now_issue frac1 frac2 in
  status done.1 = 200 →
  (∀ a row, Async.code_refs done.2 !! code = Some a →
            Async.objects done.2 !! a = Some row → Device.used row = true)
  ∧ ∀ es2, Forall (Async.draws_other code) es2 →
      let h' := Async.exec done.2 es2 in
      ∀ req_body' now_check' me_out' now_issue' g1 g2,
        JS.prop (body_of req_body') "device_code" = Some (JS.Str code) →
        let answer :=
          {| status := 400;
             body := Json (JS.Obj [("error",
                       JS.Str (match Async.code_refs h' !! code with
                               | Some _ => "already_used"
                               | None => "invalid_code"
                               end))]) |} in
        Async.claim_begin h' req_body' now_check' = Async.Replied answer
        ∧ device_claim (Async.view h') req_body' now_check' me_out' now_issue' g1 g2
          = {| sent := answer; after := Async.view h'; calls := [] |}.
Proof.
  intros Hwf Hun Hdc Hbegin Hes1 done Hok.
  destruct (async_begin_awaiting h req_body code now_check p c Hdc Hbegin)
    as [Hcode Hheld].
  pose proof (async_exec_wf es1 h Hwf) as Hwf1.
  pose proof (async_exec_unshared es1 h Hwf Hun) as Hun1.
  assert (Hheld1 : ∀ a', Async.code_refs (Async.exec h es1) !! code = Some a' →
                         a' = Async.held p).
  { apply async_exec_held; [exact Hes1 |]. intros a' Ha'. congruence. }
  destruct (async_finish_200 _ p me_out now_issue frac1 frac2 Hok)
    as (row & sess & Hrow & Hdone).
  assert (Hwf2 : Async.wf done.2).
  { apply (async_step_wf _ (Async.Finish p me_out now_issue frac1 frac2) Hwf1). }
  assert (Hun2 : Async.unshared done.2).
  { apply (async_step_unshared _ (Async.Finish p me_out now_issue frac1 frac2) Hwf1 Hun1). }
  assert (Hspent : Async.spent code done.2).
  { intros a x. subst done. rewrite Hdone. cbn. intros Ha.
    rewrite (Hheld1 a Ha).
    rewrite list_lookup_insert_eq by (eapply lookup_lt_Some; eassumption).
    now intros [= <-]. }
  split; [exact Hspent |].
  intros es2 Hes2 h' req_body' now_check' me_out' now_issue' g1 g2 Hdc' answer.
  assert (Hwf' : Async.wf h') by now apply async_exec_wf.
  assert (Hun' : Async.unshared h') by now apply async_exec_unshared.
  assert (Hspent' : Async.spent code h') by now apply async_exec_spent.
  pose proof (async_begin_spent code h' req_body' now_check' Hcode Hwf' Hspent' Hdc')
    as Hanswer.
  split; [exact Hanswer |].
  rewrite (async_claim_refines h' req_body' now_check' me_out' now_issue' g1 g2 Hun').
  now rewrite Hanswer.
Qed.

(** [device_code_single_use] on the sample pairing: the claim succeeds
    with nothing in between; afterwards the code is claimed again at once,
    and once more after a clean-up. *)
Lemma device_code_single_use_witness :
  let p := {| Async.held := 0%nat; Async.label := JS.Undefined |} in
  let done := Async.claim_finish Async.issued p (Answered sample_user) 2000 "k3x" "9qz" in
  Async.claim_begin done.2 sample_body 3000
  = Async.Replied
      {| status := 400; body := Json (JS.Obj [("error", JS.Str "already_used")]) |}
  ∧ Async.claim_begin (Async.exec done.2 [Async.Sweep 300000]) sample_body 400000
    = Async.Replied
        {| status := 400; body := Json (JS.Obj [("error", JS.Str "invalid_code")]) |}.
Proof.
  intros p done.
  destruct (async_reached
              [Async.Start (Some "Bearer tok") (Answered sample_user) (λ _, 0%Q) 1000])
    as [Hwf Hun].
  destruct (device_code_single_use Async.issued sample_body "AAAA-AAAA-AAAA" 2000 p
              (get_users_me (JS.Str "tok")) [] (Answered sample_user) 2000 "k3x" "9qz"
              Hwf Hun eq_refl) as [_ H].
  - vm_compute. reflexivity.
  - constructor.
  - reflexivity.
  - split.
    + etransitivity;
        [exact (proj1 (H [] (Forall_nil_2 _) sample_body 3000 Failed 0 "" "" eq_refl)) |].
      vm_compute. reflexivity.
    + etransitivity;
        [exact (proj1 (H [Async.Sweep 300000] (Forall_cons_2 _ (Async.Sweep 300000) [] I (Forall_nil_2 _))
                         sample_body 400000 Failed 0 "" "" eq_refl)) |].
      vm_compute. reflexivity.
Defined.

(** C3, as stated, fails: after the sample pairing a run of the clean-up
    removes the used entry, and the next claim of the same code is
    answered [invalid_code], not [already_used]. *)
Lemma claim_after_cleanup_counterexample :
  status (sent (device_claim (step initial sample_start) sample_body 2000
                  (Answered sample_user) 2000 "k3x" "9qz")) = 200
  ∧ sent (device_claim (exec paired [Cleanup 300000]) sample_body 400000
            (Answered sample_user) 400000 "a" "b")
    = {| status := 400; body := Json (error "invalid_code") |}
  ∧ sent (device_claim (exec paired [Cleanup 300000]) sample_body 400000
            (Answered sample_user) 400000 "a" "b")
    ≠ {| status := 400; body := Json (error "already_used") |}.
Proof.
  split; [vm_compute; reflexivity |]. split; [vm_compute; reflexivity |].
  vm_compute. discriminate.
Qed.

(** What the amended claim leaves out: two claims of one code that both
    wait for the provider both succeed, and two sessions are stored. *)
Lemma overlapping_claims_both_succeed :
  let p := {| Async.held := 0%nat; Async.label := JS.Undefined |} in
  let c := {| url := "https://discord.com/api/users/@me"; method := "GET";
              bearer := Some (JS.Str "tok"); form := [] |} in
  Async.claim_begin Async.issued sample_body 2000 = Async.Awaiting p c
  ∧ Async.claim_begin Async.issued sample_body 2001 = Async.Awaiting p c
  ∧ let first := Async.claim_finish Async.issued p (Answered sample_user) 2500 "k3x" "9qz" in
    let second := Async.claim_finish first.2 p (Answered sample_user) 2600 "m1n" "4op" in
    status first.1 = 200
    ∧ status second.1 = 200
    ∧ is_Some (Async.session_map second.2 !! "sess_k3x9qz")
    ∧ is_Some (Async.session_map second.2 !! "sess_m1n4op").
Proof.
  intros p c. split; [vm_compute; reflexivity |]. split; [vm_compute; reflexivity |].
  intros first second.
  split; [vm_compute; reflexivity |]. split; [vm_compute; reflexivity |].
  split; vm_compute; eauto.
Qed.

(** ** The device code format *)

Lemma floor_mul_range r n :
  unit_interval r → 0 < n → 0 <= JS.floor_mul r n < n.
Proof.
  intros [H0 H1] Hn. unfold JS.floor_mul.
  destruct (to_double_range r H0 H1) as [Hx0 Hx1].
  set (x := JS.to_double r) in *.
  assert (Hn' : (0 < inject_Z n)%Q) by (change (inject_Z 0 < inject_Z n)%Q; now rewrite <- Zlt_Qlt).
  assert (Hq : (0 <= x * inject_Z n)%Q) by (apply Qmult_le_0_compat; lra).
  destruct (round_double_bounds (x * inject_Z n) Hq) as [Hr0 Hr1].
  split.
  - rewrite <- (Qfloor_Z 0). now apply Qfloor_resp_le.
  - rewrite Zlt_Qlt.
    apply Qle_lt_trans with (JS.round_double (x * inject_Z n)); [apply Qfloor_le |].
    apply Qle_lt_trans with (x * inject_Z n * (1 + Qpower 2 (-53)))%Q; [exact Hr1 |].
    change (Qpower 2 (-53)) with (1 # 9007199254740992)%Q in *.
    apply Qle_lt_trans
      with ((1 - (1 # 9007199254740992)) * inject_Z n * (1 + (1 # 9007199254740992)))%Q.
    + apply Qmult_le_compat_r; [| lra]. apply Qmult_le_compat_r; lra.
    + assert (E : ((1 - (1 # 9007199254740992)) * inject_Z n
                   * (1 + (1 # 9007199254740992))
                   == inject_Z n
                      * ((1 - (1 # 9007199254740992)) * (1 + (1 # 9007199254740992))))%Q)
        by ring.
      rewrite E. rewrite <- (Qmult_1_r (inject_Z n)) at 2.
      apply Qmult_lt_l; [exact Hn' |]. vm_compute. reflexivity.
Qed.

Lemma draw_spec r :
  unit_interval r → ∃ c, draw r = String c "" ∧ in_alphabet c.
Proof.
  intros Hr. unfold draw, JS.index.
  destruct (floor_mul_range r (Z.of_nat (String.length alphabet)) Hr) as [Hlo Hhi];
    [reflexivity |].
  set (k := JS.floor_mul r _) in *.
  destruct (Z.ltb_spec k 0) as [Hneg | _]; [lia |].
  assert (Hk : (Z.to_nat k < 31)%nat) by (change (Z.of_nat (String.length alphabet)) with 31 in Hhi; lia).
  generalize dependent (Z.to_nat k). intros n Hn.
  unfold in_alphabet.
  do 31 (destruct n as [| n];
         [eexists; split; [reflexivity | cbn; tauto] |]).
  lia.
Qed.

Lemma raw_code_12 (rnd : nat → Q) :
  (∀ i, (i < 12)%nat → unit_interval (rnd i)) →
  ∃ a b c d e f g h i j k l,
    raw_code 12 rnd =
      String a (String b (String c (String d (String e (String f
        (String g (String h (String i (String j (String k (String l "")))))))))))
    ∧ Forall in_alphabet [a; b; c; d; e; f; g; h; i; j; k; l].
Proof.
  intros Hrnd. unfold raw_code. cbn [seq map].
  destruct (draw_spec (rnd 0%nat)) as (a & -> & Ha); [apply Hrnd; lia |].
  destruct (draw_spec (rnd 1%nat)) as (b & -> & Hb); [apply Hrnd; lia |].
  destruct (draw_spec (rnd 2%nat)) as (c & -> & Hc); [apply Hrnd; lia |].
  destruct (draw_spec (rnd 3%nat)) as (d & -> & Hd); [apply Hrnd; lia |].
  destruct (draw_spec (rnd 4%nat)) as (e & -> & He); [apply Hrnd; lia |].
  destruct (draw_spec (rnd 5%nat)) as (f & -> & Hf); [apply Hrnd; lia |].
  destruct (draw_spec (rnd 6%nat)) as (g & -> & Hg); [apply Hrnd; lia |].
  destruct (draw_spec (rnd 7%nat)) as (h & -> & Hh); [apply Hrnd; lia |].
  destruct (draw_spec (rnd 8%nat)) as (i & -> & Hi); [apply Hrnd; lia |].
  destruct (draw_spec (rnd 9%nat)) as (j & -> & Hj); [apply Hrnd; lia |].
  destruct (draw_spec (rnd 10%nat)) as (k & -> & Hk); [apply Hrnd; lia |].
  destruct (draw_spec (rnd 11%nat)) as (l & -> & Hl); [apply Hrnd; lia |].
  exists a, b, c, d, e, f, g, h, i, j, k, l. split; [reflexivity |].
  repeat (constructor; [assumption |]). constructor.
Qed.

(** The rounding of the product is seen in the code: a draw just below
    [16/31] has a product that rounds to 16, although the exact product is
    below it. *)
Lemma floor_mul_rounded :
  let r := (2324438517352514 # 4503599627370496)%Q in
  Qfloor (r * 31) = 15
  ∧ JS.floor_mul r 31 = 16
  ∧ genDeviceCode 12 (λ _, r) = "TTTT-TTTT-TTTT".
Proof. intros r. split; [| split]; vm_compute; reflexivity. Qed.

(** C10. With the default length 12, [genDeviceCode] returns a string of
    14 characters [XXXX-XXXX-XXXX]: three groups of four characters with a
    dash at positions 4 and 9, every other character taken from the
    alphabet, which has 31 characters and contains none of 0, 1, I, L, O. *)
Theorem genDeviceCode_format (rnd : nat → Q) :
  (∀ i, (i < 12)%nat → unit_interval (rnd i)) →
  let code := genDeviceCode 12 rnd in
  String.length code = 14%nat
  ∧ String.get 4 code = Some "-"%char
  ∧ String.get 9 code = Some "-"%char
  ∧ (∃ g1 g2 g3,
        code = g1 +:+ "-" +:+ g2 +:+ "-" +:+ g3
        ∧ String.length g1 = 4%nat ∧ String.length g2 = 4%nat
        ∧ String.length g3 = 4%nat
        ∧ over_alphabet g1 ∧ over_alphabet g2 ∧ over_alphabet g3)
  ∧ (∀ n c, String.get n code = Some c → n ≠ 4%nat → n ≠ 9%nat → in_alphabet c)
  ∧ String.length alphabet = 31%nat
  ∧ Forall (λ c, ¬ in_alphabet c) ["0"; "1"; "I"; "L"; "O"]%char.
Proof.
  intros Hrnd code.
  destruct (raw_code_12 rnd Hrnd)
    as (a & b & c & d & e & f & g & h & i & j & k & l & Hraw & Hall).
  assert (Hcode : code =
    String a (String b (String c (String d (String "-"
      (String e (String f (String g (String h (String "-"
        (String i (String j (String k (String l ""))))))))))))))
    by (subst code; unfold genDeviceCode; rewrite Hraw; reflexivity).
  rewrite Hcode.
  repeat match goal with H : Forall _ (_ :: _) |- _ => inversion_clear H end.
  split; [reflexivity |]. split; [reflexivity |]. split; [reflexivity |].
  split; [| split; [| split]].
  - exists (String a (String b (String c (String d "")))),
           (String e (String f (String g (String h "")))),
           (String i (String j (String k (String l "")))).
    split; [reflexivity |]. do 3 (split; [reflexivity |]).
    unfold over_alphabet; cbn [list_ascii_of_string].
    repeat split; repeat (constructor; [assumption |]); constructor.
  - intros n ch Hget Hn4 Hn9.
    do 14 (destruct n as [| n];
           [cbn in Hget; first [congruence | injection Hget as <-; assumption] |]).
    cbn in Hget; discriminate.
  - reflexivity.
  - unfold in_alphabet. repeat constructor; cbn; intuition discriminate.
Qed.

(** [genDeviceCode_format] at the draws 0/12, 1/12, ..., 11/12. *)
Lemma genDeviceCode_format_witness :
  (∀ i, (i < 12)%nat → unit_interval (Z.of_nat i # 12))
  ∧ genDeviceCode 12 (λ i, Z.of_nat i # 12) = "ACFH-MPSV-X247"
  ∧ String.length (genDeviceCode 12 (λ i, Z.of_nat i # 12)) = 14%nat.
Proof.
  assert (H : ∀ i, (i < 12)%nat → unit_interval (Z.of_nat i # 12))
    by (intros i Hi; unfold unit_interval, Qle, Qlt; cbn; lia).
  split; [exact H |]. split; [vm_compute; reflexivity |].
  apply (genDeviceCode_format (λ i, Z.of_nat i # 12) H).
Defined.

(** * Further properties *)

(** ** Full equations of the two pairing handlers *)

Lemma device_start_ok s a meR me id rnd now :
  bearer_token a ≠ "" →
  ok meR = true →
  json meR = Some me →
  JS.prop me "id" = Some id →
  device_start s a (Answered meR) rnd now
  = {| sent := {| status := 200;
                  body := Json (JS.Obj [("device_code", JS.Str (genDeviceCode 12 rnd));
                                        ("expires_at", JS.Num (now + 600000))]) |};
       after := {| deviceCodes :=
                     <[genDeviceCode 12 rnd :=
                         {| Device.userId := id;
                            Device.discord_access_token := bearer_token a;
                            Device.exp := now + 600000;
                            Device.used := false |}]> (deviceCodes s);
                   sessions := sessions s |};
       calls := [get_users_me (JS.Str (bearer_token a))] |}.
Proof.
  intros Htok Hok Hjson Hid. unfold device_start. cbv zeta.
  rewrite (eqb_empty_false _ Htok), Hok. cbn [negb]. rewrite Hjson, Hid.
  reflexivity.
Qed.

Lemma device_claim_ok s req_body code dn row now_check meR me now_issue f1 f2 :
  JS.prop (body_of req_body) "device_code" = Some (JS.Str code) →
  JS.prop (body_of req_body) "device_name" = Some dn →
  code ≠ "" →
  deviceCodes s !! code = Some row →
  Device.used row = false →
  now_check <= Device.exp row →
  ok meR = true →
  json meR = Some me →
  device_claim s req_body now_check (Answered meR) now_issue f1 f2
  = let s' := {| deviceCodes := <[code := Device.mark_used row]> (deviceCodes s);
                 sessions := <[genSessionToken f1 f2 := session_of row now_issue dn]>
                               (sessions s) |} in
    let c := get_users_me (JS.Str (Device.discord_access_token row)) in
    match user_view me with
    | None => throw s' [c]
    | Some u =>
        respond s' 200
          (JS.Obj [("session_token", JS.Str (genSessionToken f1 f2));
                   ("user", u);
                   ("expires_at", JS.Num (now_issue + 2592000000))]) [c]
    end.
Proof.
  intros Hdc Hdn Hcode Hrow Hused Hexp Hok Hjson.
  unfold device_claim. rewrite Hdc, Hdn.
  cbn [JS.truthy negb Map_get Map_alter]. rewrite (eqb_empty_false code Hcode).
  cbn [negb]. rewrite Hrow, Hused.
  destruct (Z.ltb_spec (Device.exp row) now_check); [lia |].
  rewrite Hok, Hjson. cbn [negb]. rewrite (alter_stored _ _ _ _ Hrow).
  reflexivity.
Qed.

Lemma live_session_resolves s t sess now :
  t ≠ "" →
  sessions s !! t = Some sess →
  now < Session.exp sess →
  resolveDiscordTokenFromAuthHeader s (Some ("Bearer " +:+ t)) now
  = Some (Session.discord_access_token sess).
Proof.
  intros Ht Hsess Hnow. rewrite (resolve_with_token s t now Ht), Hsess.
  apply Z.ltb_lt in Hnow. now rewrite Hnow.
Qed.

Lemma genSessionToken_nonempty f1 f2 : genSessionToken f1 f2 ≠ "".
Proof. apply sess_prefix_nonempty, genSessionToken_prefix. Qed.

(** ** Pairing, end to end *)

(** X1.  Pairing round trip.  When a caller with provider token [tok]
    starts a pairing and the code handed out is claimed before it expires,
    with the provider accepting both lookups, the claim is answered 200
    and, at every time before the session expires, the session token
    resolves to [tok] and [GET /api/me] sends [tok] to the provider. *)
Theorem pairing_round_trip (s : store) (tok : string) (meR : response)
    (me id : JS.value) (rnd : nat → Q) (now : Z) (req_body : JS.value)
    (now_check : Z) (meR' : response) (me' u : JS.value) (now_issue : Z)
    (frac1 frac2 : string) :
  tok ≠ "" →
  ok meR = true → json meR = Some me → JS.prop me "id" = Some id →
  JS.prop (body_of req_body) "device_code" = Some (JS.Str (genDeviceCode 12 rnd)) →
  now_check <= now + 600000 →
  ok meR' = true → json meR' = Some me' → user_view me' = Some u →
  let s1 := after (device_start s (Some ("Bearer " +:+ tok)) (Answered meR) rnd now) in
  let r := device_claim s1 req_body now_check (Answered meR') now_issue frac1 frac2 in
  let h := Some ("Bearer " +:+ genSessionToken frac1 frac2) in
  status (sent r) = 200
  ∧ ∀ t out, t < now_issue + 2592000000 →
      resolveDiscordTokenFromAuthHeader (after r) h t = Some tok
      ∧ calls (api_me (after r) h t out)
        = [{| url := "https://discord.com/api/users/@me"; method := "GET";
             bearer := Some (JS.Str tok); form := [] |}].
Proof.
  intros Htok Hok Hjson Hid Hdc Hcheck Hok' Hjson' Hview s1 r h.
  assert (Hb : bearer_token (Some ("Bearer " +:+ tok)) ≠ "")
    by now rewrite bearer_token_bearer.
  destruct (body_of_prop req_body "device_name") as [dn Hdn].
  pose (row := {| Device.userId := id; Device.discord_access_token := tok;
                  Device.exp := now + 600000; Device.used := false |}).
  assert (Hrow : deviceCodes s1 !! genDeviceCode 12 rnd = Some row).
  { subst s1. rewrite (device_start_ok s _ meR me id rnd now Hb Hok Hjson Hid).
    cbn [after deviceCodes]. rewrite bearer_token_bearer. apply lookup_insert_eq. }
  subst r.
  rewrite (device_claim_ok s1 req_body (genDeviceCode 12 rnd) dn row
             now_check meR' me' now_issue frac1 frac2 Hdc Hdn
             (genDeviceCode_nonempty 12 rnd) Hrow eq_refl Hcheck Hok' Hjson').
  cbv zeta. rewrite Hview. cbn [respond sent after status].
  split; [reflexivity |]. intros t out Ht.
  match goal with
  | |- resolveDiscordTokenFromAuthHeader ?s2 _ _ = _ ∧ _ =>
      assert (Hres : resolveDiscordTokenFromAuthHeader s2 h t = Some tok)
  end.
  { subst h.
    rewrite (live_session_resolves _ _ (session_of row now_issue dn) t);
      [reflexivity | apply genSessionToken_nonempty
       | cbn [sessions]; apply lookup_insert_eq | exact Ht]. }
  split; [exact Hres |].
  apply (proxy_forwards "missing_token" get_users_me _ h t out tok Hres Htok).
Qed.

(** [pairing_round_trip] for the sample pairing, from the empty store. *)
Lemma pairing_round_trip_witness :
  resolveDiscordTokenFromAuthHeader paired (Some "Bearer sess_k3x9qz") 5000 = Some "tok".
Proof.
  refine (proj1 (proj2 (pairing_round_trip initial "tok" sample_user
            (JS.Obj [("id", JS.Str "42")]) (JS.Str "42") (λ _, 0%Q) 1000
            sample_body 2000 sample_user (JS.Obj [("id", JS.Str "42")])
            (JS.Obj [("id", JS.Str "42"); ("username", JS.Undefined);
                     ("global_name", JS.Undefined); ("avatar", JS.Undefined);
                     ("email", JS.Undefined)])
            2000 "k3x" "9qz" _ eq_refl eq_refl eq_refl eq_refl _ eq_refl eq_refl eq_refl)
            5000 Failed _)).
  - discriminate.
  - cbn. lia.
  - reflexivity.
Defined.

(** ** Reading the [Authorization] header *)

Lemma prefix_split (p x : string) :
  String.prefix p x = true →
  x = p +:+ substring (String.length p) (String.length x - String.length p) x.
Proof.
  revert x. induction p as [| a p IH]; intros x Hp.
  - cbn. rewrite Nat.sub_0_r. symmetry. apply substring_all.
  - destruct x as [| b x]; [discriminate |]. cbn in Hp.
    destruct (ascii_dec a b) as [-> | _]; [| discriminate].
    transitivity (String b (p +:+ substring (String.length p)
                                   (String.length x - String.length p) x));
      [f_equal; now apply IH | reflexivity].
Qed.

Lemma bearer_token_inv (h : option string) (t : string) :
  bearer_token h = t → t ≠ "" → h = Some ("Bearer " +:+ t).
Proof.
  unfold bearer_token. destruct h as [x |]; [| now intros <- ?].
  unfold JS.startsWith, JS.slice_from.
  destruct (String.prefix "Bearer " x) eqn:Hp; [| now intros <- ?].
  intros <- _. f_equal. exact (prefix_split "Bearer " x Hp).
Qed.

Lemma tokenless_iff (h : option string) : tokenless h ↔ bearer_token h = "".
Proof.
  split; [apply bearer_token_tokenless |].
  unfold bearer_token, tokenless. destruct h as [x |]; [| trivial].
  unfold JS.startsWith, JS.slice_from.
  destruct (String.prefix "Bearer " x) eqn:Hp; [| now left].
  intros Hrest. right. rewrite (prefix_split "Bearer " x Hp).
  cbn [String.length] in *. now rewrite Hrest.
Qed.

(** X2.  Reading the bearer token is the exact inverse of writing the
    header: the token read from a header is a non-empty [t] exactly when the
    header is ["Bearer " + t], and it is empty exactly when the header is
    absent, does not start with ["Bearer "], or is ["Bearer "] alone. *)
Theorem bearer_token_exact (h : option string) :
  (∀ t, t ≠ "" → (bearer_token h = t ↔ h = Some ("Bearer " +:+ t)))
  ∧ (bearer_token h = "" ↔ tokenless h).
Proof.
  split.
  - intros t Ht. split.
    + intros Hb. now apply bearer_token_inv.
    + intros ->. apply bearer_token_bearer.
  - symmetry. apply tokenless_iff.
Qed.

(** [bearer_token_exact] at the header [Bearer abc]. *)
Lemma bearer_token_exact_witness :
  bearer_token (Some "Bearer abc") = "abc".
Proof.
  refine (proj2 (proj1 (bearer_token_exact (Some "Bearer abc")) "abc" _) eq_refl).
  discriminate.
Defined.

(** ** Starting a pairing *)

(** X3.  [POST /api/device/start] rejects without touching the store: a
    header without a token is answered 401 [missing_bearer_token] and the
    provider is not contacted; with a token, a provider answer outside
    200..299 is answered 401 [discord_unauthorized] with the provider's
    text, and a failed request, an unparsable body or the body [null] is
    answered 500. *)
Theorem device_start_rejections (s : store) (a : option string)
    (rnd : nat → Q) (now : Z) :
  (tokenless a →
     ∀ out, device_start s a out rnd now
            = {| sent := {| status := 401;
                            body := Json (JS.Obj [("error", JS.Str "missing_bearer_token")]) |};
                 after := s; calls := [] |})
  ∧ (bearer_token a ≠ "" →
       let c := get_users_me (JS.Str (bearer_token a)) in
       (∀ meR, ok meR = false →
          device_start s a (Answered meR) rnd now
          = {| sent := {| status := 401;
                          body := Json (JS.Obj [("error", JS.Str "discord_unauthorized");
                                                ("details", JS.Str (text meR))]) |};
               after := s; calls := [c] |})
       ∧ device_start s a Failed rnd now
         = {| sent := server_error; after := s; calls := [c] |}
       ∧ (∀ meR, ok meR = true →
            json meR = None ∨ json meR = Some JS.Null →
            device_start s a (Answered meR) rnd now
            = {| sent := server_error; after := s; calls := [c] |})).
Proof.
  split.
  - intros Ha out. unfold device_start. cbv zeta.
    now rewrite (bearer_token_tokenless a Ha).
  - intros Ha c. subst c. unfold device_start. cbv zeta.
    rewrite (eqb_empty_false _ Ha). repeat split.
    + intros meR ->. reflexivity.
    + intros meR -> [-> | ->]; reflexivity.
Qed.

(** [device_start_rejections] for a missing header and for a refused
    token. *)
Lemma device_start_rejections_witness :
  status (sent (device_start initial None Failed (λ _, 0%Q) 0)) = 401
  ∧ status (sent (device_start initial (Some "Bearer bad")
                    (Answered {| resp_status := 401; text := "no"; json := None |})
                    (λ _, 0%Q) 0)) = 401.
Proof.
  split.
  - rewrite (proj1 (device_start_rejections initial None (λ _, 0%Q) 0) I Failed).
    reflexivity.
  - destruct (proj2 (device_start_rejections initial (Some "Bearer bad") (λ _, 0%Q) 0))
      as (Hrefused & _ & _); [discriminate |].
    rewrite (Hrefused {| resp_status := 401; text := "no"; json := None |} eq_refl).
    reflexivity.
Defined.

(** X4.  A pairing start that the provider accepts answers 200 with the
    code it drew and the expiry [now + 10 min], and that is what it stores:
    the entry under the code holds the caller's id and token, that expiry
    and [used = false], replacing whatever was stored under the code; every
    other device code and the whole [sessions] map are left as they were. *)
Theorem device_start_issues (s : store) (a : option string) (meR : response)
    (me id : JS.value) (rnd : nat → Q) (now : Z) :
  bearer_token a ≠ "" →
  ok meR = true →
  json meR = Some me →
  JS.prop me "id" = Some id →
  let r := device_start s a (Answered meR) rnd now in
  let code := genDeviceCode 12 rnd in
  sent r = {| status := 200;
              body := Json (JS.Obj [("device_code", JS.Str code);
                                    ("expires_at", JS.Num (now + 600000))]) |}
  ∧ deviceCodes (after r) !! code
    = Some {| Device.userId := id; Device.discord_access_token := bearer_token a;
              Device.exp := now + 600000; Device.used := false |}
  ∧ (∀ k, k ≠ code → deviceCodes (after r) !! k = deviceCodes s !! k)
  ∧ sessions (after r) = sessions s
  ∧ calls r = [{| url := "https://discord.com/api/users/@me"; method := "GET";
                 bearer := Some (JS.Str (bearer_token a)); form := [] |}].
Proof.
  intros Ha Hok Hjson Hid r code. subst r code.
  rewrite (device_start_ok s a meR me id rnd now Ha Hok Hjson Hid).
  cbn [sent after calls deviceCodes sessions]. repeat split.
  - apply lookup_insert_eq.
  - intros k Hk. now rewrite lookup_insert_ne.
Qed.

(** [device_start_issues] for the sample start, on a store that already
    holds the claimed code: the entry is replaced by an unused one. *)
Lemma device_start_issues_witness :
  deviceCodes (step paired sample_start) !! "AAAA-AAAA-AAAA"
  = Some {| Device.userId := JS.Str "42"; Device.discord_access_token := "tok";
            Device.exp := 601000; Device.used := false |}.
Proof.
  refine (proj1 (proj2 (device_start_issues paired (Some "Bearer tok") sample_user
            (JS.Obj [("id", JS.Str "42")]) (JS.Str "42") (λ _, 0%Q) 1000
            _ eq_refl eq_refl eq_refl))).
  discriminate.
Defined.

(** ** Claiming a code *)

(** X5.  A claim of a stored, unused, unexpired code that the provider
    accepts answers 200 with the session token it drew and the expiry
    [now + 30 days], and that is what it stores; the claimed entry is marked
    used with its other fields unchanged, and every other entry of both
    maps is left as it was.  The provider was asked once, with the token
    stored in the claimed entry. *)
Theorem device_claim_succeeds (s : store) (req_body : JS.value) (code : string)
    (dn : JS.value) (row : Device.row) (now_check : Z) (meR : response)
    (me u : JS.value) (now_issue : Z) (frac1 frac2 : string) :
  JS.prop (body_of req_body) "device_code" = Some (JS.Str code) →
  JS.prop (body_of req_body) "device_name" = Some dn →
  code ≠ "" →
  deviceCodes s !! code = Some row →
  Device.used row = false →
  now_check <= Device.exp row →
  ok meR = true →
  json meR = Some me →
  user_view me = Some u →
  let r := device_claim s req_body now_check (Answered meR) now_issue frac1 frac2 in
  let token := genSessionToken frac1 frac2 in
  sent r = {| status := 200;
              body := Json (JS.Obj [("session_token", JS.Str token);
                                    ("user", u);
                                    ("expires_at", JS.Num (now_issue + 2592000000))]) |}
  ∧ sessions (after r) !! token = Some (session_of row now_issue dn)
  ∧ (∀ k, k ≠ token → sessions (after r) !! k = sessions s !! k)
  ∧ deviceCodes (after r) !! code
    = Some {| Device.userId := Device.userId row;
              Device.discord_access_token := Device.discord_access_token row;
              Device.exp := Device.exp row;
              Device.used := true |}
  ∧ (∀ k, k ≠ code → deviceCodes (after r) !! k = deviceCodes s !! k)
  ∧ calls r = [{| url := "https://discord.com/api/users/@me"; method := "GET";
                 bearer := Some (JS.Str (Device.discord_access_token row)); form := [] |}].
Proof.
  intros Hdc Hdn Hcode Hrow Hused Hexp Hok Hjson Hview r token. subst r token.
  rewrite (device_claim_ok s req_body code dn row now_check meR me now_issue
             frac1 frac2 Hdc Hdn Hcode Hrow Hused Hexp Hok Hjson).
  cbv zeta. rewrite Hview. cbn [respond sent after calls deviceCodes sessions].
  repeat split.
  - apply lookup_insert_eq.
  - intros k Hk. now rewrite lookup_insert_ne.
  - apply lookup_insert_eq.
  - intros k Hk. now rewrite lookup_insert_ne.
Qed.

(** [device_claim_succeeds] for the sample claim. *)
Lemma device_claim_succeeds_witness :
  sessions paired !! "sess_k3x9qz"
  = Some {| Session.userId := JS.Str "42"; Session.discord_access_token := "tok";
            Session.exp := 2592002000; Session.device_name := JS.Str "Windows" |}.
Proof.
  refine (proj1 (proj2 (device_claim_succeeds (step initial sample_start) sample_body
            "AAAA-AAAA-AAAA" JS.Undefined
            {| Device.userId := JS.Str "42"; Device.discord_access_token := "tok";
               Device.exp := 601000; Device.used := false |}
            2000 sample_user (JS.Obj [("id", JS.Str "42")])
            (JS.Obj [("id", JS.Str "42"); ("username", JS.Undefined);
                     ("global_name", JS.Undefined); ("avatar", JS.Undefined);
                     ("email", JS.Undefined)])
            2000 "k3x" "9qz" eq_refl eq_refl _ _ eq_refl _ eq_refl eq_refl eq_refl))).
  - discriminate.
  - vm_compute. reflexivity.
  - cbn. lia.
Defined.

(** X6.  When the provider accepts the lookup of a claim but its body is
    the JSON value [null], the claim is answered 500 [server_error], yet
    the code has been marked used and the session has been stored: the
    reply is built after both writes. *)
Theorem device_claim_null_user (s : store) (req_body : JS.value) (code : string)
    (dn : JS.value) (row : Device.row) (now_check : Z) (meR : response)
    (now_issue : Z) (frac1 frac2 : string) :
  JS.prop (body_of req_body) "device_code" = Some (JS.Str code) →
  JS.prop (body_of req_body) "device_name" = Some dn →
  code ≠ "" →
  deviceCodes s !! code = Some row →
  Device.used row = false →
  now_check <= Device.exp row →
  ok meR = true →
  json meR = Some JS.Null →
  let r := device_claim s req_body now_check (Answered meR) now_issue frac1 frac2 in
  sent r = {| status := 500; body := Json (JS.Obj [("error", JS.Str "server_error")]) |}
  ∧ deviceCodes (after r) !! code = Some (Device.mark_used row)
  ∧ sessions (after r) !! genSessionToken frac1 frac2
    = Some (session_of row now_issue dn).
Proof.
  intros Hdc Hdn Hcode Hrow Hused Hexp Hok Hjson r. subst r.
  rewrite (device_claim_ok s req_body code dn row now_check meR JS.Null now_issue
             frac1 frac2 Hdc Hdn Hcode Hrow Hused Hexp Hok Hjson).
  cbn. repeat split; apply lookup_insert_eq.
Qed.

(** [device_claim_null_user] after the sample start. *)
Lemma device_claim_null_user_witness :
  let r := device_claim (step initial sample_start) sample_body 2000
             (Answered {| resp_status := 200; text := "null"; json := Some JS.Null |})
             2000 "k3x" "9qz" in
  status (sent r) = 500
  ∧ is_Some (sessions (after r) !! "sess_k3x9qz").
Proof.
  intros r.
  destruct (device_claim_null_user (step initial sample_start) sample_body
              "AAAA-AAAA-AAAA" JS.Undefined
              {| Device.userId := JS.Str "42"; Device.discord_access_token := "tok";
                 Device.exp := 601000; Device.used := false |}
              2000 {| resp_status := 200; text := "null"; json := Some JS.Null |}
              2000 "k3x" "9qz" eq_refl eq_refl) as (Hsent & _ & Hsess).
  - discriminate.
  - vm_compute. reflexivity.
  - reflexivity.
  - cbn. lia.
  - reflexivity.
  - reflexivity.
  - split; [fold r in Hsent; now rewrite Hsent |].
    fold r in Hsess. change (genSessionToken "k3x" "9qz") with "sess_k3x9qz" in Hsess.
    rewrite Hsess. eauto.
Defined.

Lemma body_of_foreign (b : JS.value) (k : string) :
  (∀ fs, b ≠ JS.Obj fs) → JS.prop (body_of b) k = Some JS.Undefined.
Proof.
  intros Hb. unfold body_of, JS.or.
  destruct b as [| | [|] | n | t | items | fs]; cbn; try reflexivity.
  - destruct (n =? 0); reflexivity.
  - destruct (String.eqb t ""); reflexivity.
  - now destruct (Hb fs).
Qed.

(** X7.  Of the bodies that reach the handler: a claim whose [device_code]
    is absent, [null], [false], [0] or the empty string, and likewise a
    claim without a body or with an array as body, is answered 400
    [missing_code]; a claim whose [device_code] is some other value that is
    not a string is answered 400 [invalid_code].  In both cases the store
    is untouched and the provider is not contacted. *)
Theorem device_claim_without_code (s : store) (req_body : JS.value)
    (now_check : Z) (me_out : outcome) (now_issue : Z) (frac1 frac2 : string) :
  parsed req_body →
  let r := device_claim s req_body now_check me_out now_issue frac1 frac2 in
  let rejected (code : string) :=
    r = {| sent := {| status := 400; body := Json (JS.Obj [("error", JS.Str code)]) |};
           after := s; calls := [] |} in
  (∀ v, JS.prop (body_of req_body) "device_code" = Some v →
        JS.truthy v = false → rejected "missing_code")
  ∧ (req_body = JS.Undefined ∨ (∃ items, req_body = JS.Arr items) →
     rejected "missing_code")
  ∧ (∀ v, JS.prop (body_of req_body) "device_code" = Some v →
          JS.truthy v = true → (∀ k, v ≠ JS.Str k) → rejected "invalid_code").
Proof.
  intros _ r rejected. subst r rejected. unfold device_claim.
  destruct (body_of_prop req_body "device_name") as [dn Hdn].
  split; [| split].
  - intros v -> Hv. now rewrite Hdn, Hv.
  - intros Hb. rewrite !(body_of_foreign req_body); [reflexivity | |];
      intros fs ->; destruct Hb as [Hb | [items Hb]]; discriminate Hb.
  - intros v -> Hv Hstr. rewrite Hdn, Hv. cbn [negb].
    destruct v; try reflexivity. now destruct (Hstr s0).
Qed.

(** [device_claim_without_code] for an empty code, for an array as body
    and for a number as code. *)
Lemma device_claim_without_code_witness :
  let err r := body (sent r) in
  err (device_claim paired (JS.Obj [("device_code", JS.Str "")]) 0 Failed 0 "" "")
  = Json (error "missing_code")
  ∧ err (device_claim paired (JS.Arr [JS.Str "AAAA-AAAA-AAAA"]) 0 Failed 0 "" "")
    = Json (error "missing_code")
  ∧ err (device_claim paired (JS.Obj [("device_code", JS.Num 7)]) 0 Failed 0 "" "")
    = Json (error "invalid_code").
Proof.
  intros err. split; [| split].
  - rewrite (proj1 (device_claim_without_code paired (JS.Obj [("device_code", JS.Str "")])
                      0 Failed 0 "" "" I) (JS.Str "") eq_refl eq_refl).
    reflexivity.
  - rewrite (proj1 (proj2 (device_claim_without_code paired
                             (JS.Arr [JS.Str "AAAA-AAAA-AAAA"]) 0 Failed 0 "" "" I))).
    + reflexivity.
    + right. eexists. reflexivity.
  - rewrite (proj2 (proj2 (device_claim_without_code paired
                             (JS.Obj [("device_code", JS.Num 7)]) 0 Failed 0 "" "" I))
               (JS.Num 7) eq_refl eq_refl).
    + reflexivity.
    + discriminate.
Defined.

(** X8.  A claim contacts the provider at most once, and only on behalf of
    a stored code that is unused and unexpired, with the token stored for
    that code; every other claim is settled without a provider request. *)
Theorem device_claim_calls (s : store) (req_body : JS.value) (now_check : Z)
    (me_out : outcome) (now_issue : Z) (frac1 frac2 : string) :
  let r := device_claim s req_body now_check me_out now_issue frac1 frac2 in
  calls r = []
  ∨ ∃ code row,
      JS.prop (body_of req_body) "device_code" = Some (JS.Str code)
      ∧ deviceCodes s !! code = Some row
      ∧ Device.used row = false
      ∧ now_check <= Device.exp row
      ∧ calls r = [{| url := "https://discord.com/api/users/@me"; method := "GET";
                     bearer := Some (JS.Str (Device.discord_access_token row)); form := [] |}].
Proof.
  intros r. subst r. unfold device_claim.
  destruct (JS.prop (body_of req_body) "device_code") as [dc |] eqn:Hdc; [| now left].
  destruct (JS.prop (body_of req_body) "device_name") as [dn |]; [| now left].
  destruct (negb (JS.truthy dc)); [now left |].
  destruct (Map_get (deviceCodes s) dc) as [row |] eqn:Hget; [| now left].
  destruct (Map_get_Some _ _ _ Hget) as (code & -> & Hrow).
  destruct (Device.used row) eqn:Hused; [now left |].
  destruct (Z.ltb_spec (Device.exp row) now_check) as [| Hexp]; [now left |].
  right. exists code, row. repeat split; try assumption.
  destruct me_out as [| meR]; [reflexivity |].
  destruct (negb (ok meR)); [reflexivity |].
  destruct (json meR) as [me |]; [| reflexivity].
  destruct (user_view me); reflexivity.
Qed.

(** ** Expiry *)

(** X9.  The two expiry tests of a device code differ at the instant of
    expiry.  A claim made exactly at the expiry time of an unused code is
    not rejected as expired (the provider is asked), and one millisecond
    later it is answered 400 [expired]; the clean-up keeps the entry one
    millisecond before its expiry and removes it from the expiry time on. *)
Theorem device_code_expiry_boundary (s : store) (req_body : JS.value)
    (code : string) (row : Device.row) (me_out : outcome) (now_issue : Z)
    (frac1 frac2 : string) :
  JS.prop (body_of req_body) "device_code" = Some (JS.Str code) →
  code ≠ "" →
  deviceCodes s !! code = Some row →
  Device.used row = false →
  let at_expiry := Device.exp row in
  calls (device_claim s req_body at_expiry me_out now_issue frac1 frac2)
  = [get_users_me (JS.Str (Device.discord_access_token row))]
  ∧ device_claim s req_body (at_expiry + 1) me_out now_issue frac1 frac2
    = {| sent := {| status := 400; body := Json (JS.Obj [("error", JS.Str "expired")]) |};
         after := s; calls := [] |}
  ∧ deviceCodes (cleanup s (at_expiry - 1)) !! code = Some row
  ∧ deviceCodes (cleanup s at_expiry) !! code = None.
Proof.
  intros Hdc Hcode Hrow Hused at_expiry. subst at_expiry.
  destruct (body_of_prop req_body "device_name") as [dn Hdn].
  split; [| split; [| split]].
  - unfold device_claim. rewrite Hdc, Hdn.
    cbn [JS.truthy negb Map_get]. rewrite (eqb_empty_false code Hcode).
    cbn [negb]. rewrite Hrow, Hused, Z.ltb_irrefl.
    destruct me_out as [| meR]; [reflexivity |].
    destruct (negb (ok meR)); [reflexivity |].
    destruct (json meR) as [me |]; [| reflexivity].
    destruct (user_view me); reflexivity.
  - unfold device_claim. rewrite Hdc, Hdn.
    cbn [JS.truthy negb Map_get]. rewrite (eqb_empty_false code Hcode).
    cbn [negb]. rewrite Hrow, Hused.
    destruct (Z.ltb_spec (Device.exp row) (Device.exp row + 1)); [reflexivity | lia].
  - cbn [cleanup deviceCodes]. rewrite delete_where_lookup, Hrow. cbn.
    rewrite Hused. destruct (Z.leb_spec (Device.exp row) (Device.exp row - 1));
      [lia | reflexivity].
  - cbn [cleanup deviceCodes]. rewrite delete_where_lookup, Hrow. cbn.
    now rewrite Z.leb_refl.
Qed.

(** [device_code_expiry_boundary] for the code of the sample start, which
    expires at 601000. *)
Lemma device_code_expiry_boundary_witness :
  let s := step initial sample_start in
  status (sent (device_claim s sample_body 601000 (Answered sample_user) 601000 "a" "b"))
  = 200
  ∧ status (sent (device_claim s sample_body 601001 (Answered sample_user) 601001 "a" "b"))
    = 400
  ∧ deviceCodes (cleanup s 601000) !! "AAAA-AAAA-AAAA" = None.
Proof.
  intros s.
  destruct (device_code_expiry_boundary s sample_body "AAAA-AAAA-AAAA"
              {| Device.userId := JS.Str "42"; Device.discord_access_token := "tok";
                 Device.exp := 601000; Device.used := false |}
              (Answered sample_user) 601001 "a" "b" eq_refl)
    as (_ & Hlate & _ & Hswept).
  - discriminate.
  - vm_compute. reflexivity.
  - reflexivity.
  - split; [vm_compute; reflexivity |]. split; [| exact Hswept].
    cbn [Device.exp] in Hlate. change (601000 + 1) with 601001 in Hlate.
    now rewrite Hlate.
Defined.

(** ** The clean-up *)

(** X10.  Two runs of the clean-up in a row amount to one run at the later
    of the two times; in particular a second run at the same time changes
    nothing. *)
Theorem cleanup_twice (s : store) (now1 now2 : Z) :
  cleanup (cleanup s now1) now2 = cleanup s (Z.max now1 now2).
Proof.
  unfold cleanup. cbn [sessions deviceCodes]. f_equal; apply map_eq; intros k;
    rewrite !delete_where_lookup.
  - destruct (deviceCodes s !! k) as [v |]; cbn; [| reflexivity].
    destruct (Device.used v) eqn:Hused; cbn.
    + now rewrite !orb_true_r.
    + rewrite !orb_false_r.
      destruct (Z.leb_spec (Device.exp v) now1); cbn;
        [destruct (Z.leb_spec (Device.exp v) (Z.max now1 now2)); [reflexivity | lia] |].
      rewrite ?Hused, ?orb_false_r.
      destruct (Z.leb_spec (Device.exp v) now2),
               (Z.leb_spec (Device.exp v) (Z.max now1 now2)); (reflexivity || lia).
  - destruct (sessions s !! k) as [v |]; cbn; [| reflexivity].
    destruct (Z.leb_spec (Session.exp v) now1); cbn;
      [destruct (Z.leb_spec (Session.exp v) (Z.max now1 now2)); [reflexivity | lia] |].
    destruct (Z.leb_spec (Session.exp v) now2),
             (Z.leb_spec (Session.exp v) (Z.max now1 now2)); (reflexivity || lia).
Qed.

(** ** Tokens held in the store *)

Lemma device_start_after_token s a m rnd now :
  after (device_start s a m rnd now) = s
  ∨ ∃ row, Device.discord_access_token row ≠ ""
           ∧ after (device_start s a m rnd now)
             = {| deviceCodes := <[genDeviceCode 12 rnd := row]> (deviceCodes s);
                  sessions := sessions s |}.
Proof.
  unfold device_start. cbv zeta.
  destruct (String.eqb_spec (bearer_token a) "") as [| Hne]; [now left |].
  destruct m as [| meR]; [now left |].
  destruct (negb (ok meR)); [now left |].
  destruct (json meR) as [me |]; [| now left].
  destruct (JS.prop me "id") as [id |]; [| now left].
  right. eexists. split; [| reflexivity]. exact Hne.
Qed.

Lemma step_tokens_wf s e : tokens_wf s → tokens_wf (step s e).
Proof.
  intros [Hs Hd]. destruct e; cbn [step].
  - split; assumption.
  - rewrite auth_discord_after. split; assumption.
  - destruct (device_start_after_token s authorization me_out rnd now)
      as [-> | (row & Hrow & ->)]; [split; assumption |].
    split; cbn; [exact Hs |].
    intros k x. rewrite lookup_insert.
    case_decide; [now intros [= <-] | apply Hd].
  - destruct (device_claim_after s req_body now_check me_out now_issue frac1 frac2)
      as [-> | (code & row & sess & _ & Hcreated & Hrow & _ & ->)];
      [split; assumption |].
    split; cbn; intros k x; rewrite lookup_insert; case_decide.
    + intros [= <-]. inversion Hcreated; subst. cbn. split.
      * eapply Hd. eassumption.
      * destruct (JS.truthy name) eqn:Hname; [exact Hname | reflexivity].
    + apply Hs.
    + intros [= <-]. cbn. eapply Hd. eassumption.
    + apply Hd.
  - unfold api_me. rewrite proxy_after. split; assumption.
  - unfold api_discord_guilds. rewrite proxy_after. split; assumption.
  - split; cbn; intros k x [H _]%delete_where_Some; eauto.
Qed.

Lemma reachable_tokens_wf s : reachable s → tokens_wf s.
Proof.
  induction 1 as [| s e _ IH]; [| now apply step_tokens_wf].
  split; intros k v; cbn; rewrite lookup_empty; discriminate.
Qed.

(** In a store the server can be in, a header with a token always
    resolves to a non-empty token. *)
Lemma resolve_nonempty s h now :
  reachable s →
  bearer_token h ≠ "" →
  ∃ tok, resolveDiscordTokenFromAuthHeader s h now = Some tok ∧ tok ≠ "".
Proof.
  intros Hreach Hh. unfold resolveDiscordTokenFromAuthHeader. cbv zeta.
  rewrite (eqb_empty_false _ Hh).
  destruct (sessions s !! bearer_token h) as [sess |] eqn:Hsess; [| eauto].
  destruct (now <? Session.exp sess); [| eauto].
  eexists. split; [reflexivity |].
  eapply (proj1 (reachable_tokens_wf s Hreach)). eassumption.
Qed.

(** X11.  In a store the server can be in, a request to [GET /api/me] or
    [GET /api/discord/guilds] that presents a session token before its
    expiry is sent to the provider once, with the provider token stored in
    the session and never with the session token in its place; when the
    provider answers with a status in 200..299 the handler sends the
    provider's text as it is, with status 200. *)
Theorem live_session_forwarded (s : store) (t : string) (sess : Session.row) (now : Z) :
  reachable s →
  sessions s !! t = Some sess →
  now < Session.exp sess →
  let h := Some ("Bearer " +:+ t) in
  let tok := Session.discord_access_token sess in
  tok ≠ ""
  ∧ (∀ out, calls (api_me s h now out)
            = [{| url := "https://discord.com/api/users/@me"; method := "GET";
                 bearer := Some (JS.Str tok); form := [] |}]
            ∧ calls (api_discord_guilds s h now out)
              = [{| url := "https://discord.com/api/users/@me/guilds"; method := "GET";
                   bearer := Some (JS.Str tok); form := [] |}])
  ∧ (∀ r, ok r = true →
       api_me s h now (Answered r)
       = {| sent := {| status := 200; body := Raw (text r) |}; after := s;
            calls := [{| url := "https://discord.com/api/users/@me"; method := "GET";
                         bearer := Some (JS.Str tok); form := [] |}] |}
       ∧ api_discord_guilds s h now (Answered r)
         = {| sent := {| status := 200; body := Raw (text r) |}; after := s;
              calls := [{| url := "https://discord.com/api/users/@me/guilds"; method := "GET";
                           bearer := Some (JS.Str tok); form := [] |}] |}).
Proof.
  intros Hreach Hsess Hnow h tok.
  assert (Ht : t ≠ "").
  { apply sess_prefix_nonempty. eapply (proj1 (reachable_wf s Hreach)); eassumption. }
  assert (Htok : tok ≠ "")
    by (eapply (proj1 (reachable_tokens_wf s Hreach)); eassumption).
  assert (Hres : resolveDiscordTokenFromAuthHeader s h now = Some tok)
    by now apply live_session_resolves.
  split; [exact Htok |]. split.
  - intros out. split.
    + apply (proxy_forwards "missing_token" get_users_me s h now out tok Hres Htok).
    + apply (proxy_forwards "missing_bearer_token" get_guilds s h now out tok Hres Htok).
  - intros r Hok. unfold api_me, api_discord_guilds, proxy.
    rewrite Hres, (eqb_empty_false tok Htok), Hok. split; reflexivity.
Qed.

(** [live_session_forwarded] on the paired store. *)
Lemma live_session_forwarded_witness :
  calls (api_me paired (Some "Bearer sess_k3x9qz") 5000 Failed)
  = [{| url := "https://discord.com/api/users/@me"; method := "GET";
       bearer := Some (JS.Str "tok"); form := [] |}].
Proof.
  refine (proj1 (proj1 (proj2 (live_session_forwarded paired "sess_k3x9qz"
            {| Session.userId := JS.Str "42"; Session.discord_access_token := "tok";
               Session.exp := 2592002000; Session.device_name := JS.Str "Windows" |}
            5000 _ _ _)) Failed)).
  - apply reachable_exec, reach_initial.
  - vm_compute. reflexivity.
  - reflexivity.
Defined.

(** X12.  In a store the server can be in, [GET /api/me] and
    [GET /api/discord/guilds] answer with their own 401 exactly when the
    header carries no token, and exactly then the provider is not
    contacted: every header with a token reaches the provider. *)
Theorem proxy_rejects_iff_tokenless (s : store) (h : option string) (now : Z)
    (out : outcome) :
  reachable s →
  (sent (api_me s h now out)
   = {| status := 401; body := Json (JS.Obj [("error", JS.Str "missing_token")]) |}
   ↔ tokenless h)
  ∧ (sent (api_discord_guilds s h now out)
     = {| status := 401; body := Json (JS.Obj [("error", JS.Str "missing_bearer_token")]) |}
     ↔ tokenless h)
  ∧ (calls (api_me s h now out) = [] ↔ tokenless h)
  ∧ (calls (api_discord_guilds s h now out) = [] ↔ tokenless h).
Proof.
  intros Hreach.
  destruct (decide (bearer_token h = "")) as [Hempty | Hfull].
  - assert (Hh : tokenless h) by now apply tokenless_iff.
    pose proof (resolve_tokenless s h now Hh) as Hnone.
    unfold api_me, api_discord_guilds, proxy. rewrite Hnone.
    repeat split; auto.
  - destruct (resolve_nonempty s h now Hreach Hfull) as (tok & Hres & Htok).
    destruct (proxy_forwards "missing_token" get_users_me s h now out tok Hres Htok)
      as [Hc1 Hs1].
    destruct (proxy_forwards "missing_bearer_token" get_guilds s h now out tok Hres Htok)
      as [Hc2 Hs2].
    unfold api_me, api_discord_guilds.
    repeat split; intros H;
      try (exfalso; apply Hfull; now apply tokenless_iff);
      try (exfalso; congruence).
Qed.

(** [proxy_rejects_iff_tokenless] for a header of another scheme. *)
Lemma proxy_rejects_iff_tokenless_witness :
  sent (api_me paired (Some "Basic dXNlcg") 0 Failed)
  = {| status := 401; body := Json (error "missing_token") |}.
Proof.
  refine (proj2 (proj1 (proxy_rejects_iff_tokenless paired (Some "Basic dXNlcg") 0 Failed _)) _).
  - apply reachable_exec, reach_initial.
  - left. reflexivity.
Defined.

(** ** What outlives the traffic *)

Lemma step_keeps_session s e t sess :
  sessions s !! t = Some sess →
  keeps_session t (Session.exp sess) e →
  sessions (step s e) !! t = Some sess.
Proof.
  intros Hsess He. destruct e; cbn [step].
  - exact Hsess.
  - now rewrite auth_discord_after.
  - destruct (device_start_after s authorization me_out rnd now)
      as [-> | (row & _ & ->)]; exact Hsess.
  - destruct (device_claim_after s req_body now_check me_out now_issue frac1 frac2)
      as [-> | (code & row & sess' & _ & _ & _ & _ & ->)]; [exact Hsess |].
    cbn. now rewrite lookup_insert_ne.
  - unfold api_me. now rewrite proxy_after.
  - unfold api_discord_guilds. now rewrite proxy_after.
  - cbn in *. rewrite delete_where_lookup, Hsess. cbn.
    destruct (Z.leb_spec (Session.exp sess) now); [lia | reflexivity].
Qed.

(** X13.  A stored session is neither changed nor removed by anything the
    server handles before the session expires, except by a claim that
    happens to draw the same session token: after any sequence of requests
    and clean-up runs, each run before the expiry, the same record is still
    stored under the token. *)
Theorem session_outlives (s : store) (t : string) (sess : Session.row)
    (es : list event) :
  sessions s !! t = Some sess →
  Forall (keeps_session t (Session.exp sess)) es →
  sessions (exec s es) !! t = Some sess.
Proof.
  revert s. induction es as [| e es IH]; intros s Hsess Hes; [exact Hsess |].
  inversion_clear Hes. cbn. apply IH; [| assumption].
  now apply step_keeps_session.
Qed.

(** [session_outlives] on the paired store: a new pairing, a pairing
    attempt and a clean-up after 29 days leave the session in place. *)
Lemma session_outlives_witness :
  sessions (exec paired [sample_start;
                         DeviceClaim sample_body 5000 (Answered sample_user) 5000 "x" "y";
                         Cleanup 2505600000]) !! "sess_k3x9qz"
  = Some {| Session.userId := JS.Str "42"; Session.discord_access_token := "tok";
            Session.exp := 2592002000; Session.device_name := JS.Str "Windows" |}.
Proof.
  apply session_outlives.
  - vm_compute. reflexivity.
  - repeat constructor; cbn; (discriminate || lia).
Defined.

Lemma step_keeps_code s e code row :
  deviceCodes s !! code = Some row →
  Device.used row = false →
  keeps_code code (Device.exp row) e →
  deviceCodes (step s e) !! code = Some row.
Proof.
  intros Hrow Hused He. destruct e; cbn [step].
  - exact Hrow.
  - now rewrite auth_discord_after.
  - destruct (device_start_after s authorization me_out rnd now)
      as [-> | (row' & _ & ->)]; [exact Hrow |].
    cbn. now rewrite lookup_insert_ne.
  - destruct (device_claim_after s req_body now_check me_out now_issue frac1 frac2)
      as [-> | (code' & row' & sess' & Hmarked & _ & _ & _ & ->)]; [exact Hrow |].
    cbn. rewrite lookup_insert_ne; [exact Hrow |].
    intros ->. inversion Hmarked; subst. cbn in He. contradiction.
  - unfold api_me. now rewrite proxy_after.
  - unfold api_discord_guilds. now rewrite proxy_after.
  - cbn in *. rewrite delete_where_lookup, Hrow. cbn. rewrite Hused.
    destruct (Z.leb_spec (Device.exp row) now); [lia | reflexivity].
Qed.

(** X14.  An unused device code stays stored, unchanged and unused,
    through everything the server handles before the code expires, as long
    as it is not claimed itself and no pairing start draws the same code:
    claims of other codes, pairing starts, passthrough requests and
    clean-up runs before its expiry do not touch it. *)
Theorem device_code_outlives (s : store) (code : string) (row : Device.row)
    (es : list event) :
  deviceCodes s !! code = Some row →
  Device.used row = false →
  Forall (keeps_code code (Device.exp row)) es →
  deviceCodes (exec s es) !! code = Some row.
Proof.
  revert s. induction es as [| e es IH]; intros s Hrow Hused Hes; [exact Hrow |].
  inversion_clear Hes. cbn. apply IH; try assumption.
  now apply step_keeps_code.
Qed.

(** [device_code_outlives] after the sample start: a passthrough request,
    a claim of another code and a clean-up after five minutes leave the
    code claimable. *)
Lemma device_code_outlives_witness :
  deviceCodes (exec (step initial sample_start)
                 [Me (Some "Bearer tok") 1500 Failed;
                  DeviceClaim (JS.Obj [("device_code", JS.Str "BBBB-BBBB-BBBB")])
                    1600 Failed 1600 "x" "y";
                  Cleanup 301000]) !! "AAAA-AAAA-AAAA"
  = Some {| Device.userId := JS.Str "42"; Device.discord_access_token := "tok";
            Device.exp := 601000; Device.used := false |}.
Proof.
  apply device_code_outlives.
  - vm_compute. reflexivity.
  - reflexivity.
  - repeat constructor; cbn; (discriminate || lia).
Defined.

(** ** Replies and the store *)

(** X15.  The status codes that the route handlers set, once a request
    has reached them.  The health check sets 200; the code exchange 200,
    400 or 500; a pairing start 200, 401 or 500; a claim 200, 400, 401 or
    500; a passthrough route 200, 401 or 500, or else the status of a
    provider answer that lies outside 200..299. *)
Theorem reply_statuses (s : store) :
  (∀ now, status (sent (health s now)) = 200)
  ∧ (∀ env b t u, status (sent (auth_discord env s b t u)) ∈ [200; 400; 500])
  ∧ (∀ a m rnd now, status (sent (device_start s a m rnd now)) ∈ [200; 401; 500])
  ∧ (∀ b n1 m n2 f1 f2,
       status (sent (device_claim s b n1 m n2 f1 f2)) ∈ [200; 400; 401; 500])
  ∧ (∀ missing mk a now out,
       status (sent (proxy missing mk s a now out)) ∈ [200; 401; 500]
       ∨ ∃ r, out = Answered r ∧ ok r = false
              ∧ status (sent (proxy missing mk s a now out)) = resp_status r).
Proof.
  split; [reflexivity |]. split; [| split; [| split]].
  - intros env b t u. unfold auth_discord.
    repeat match goal with
           | |- status (sent (match ?x with _ => _ end)) ∈ _ => destruct x
           | |- status (sent (if ?x then _ else _)) ∈ _ => destruct x
           end; cbn; set_solver.
  - intros a m rnd now. unfold device_start.
    repeat match goal with
           | |- status (sent (match ?x with _ => _ end)) ∈ _ => destruct x
           | |- status (sent (if ?x then _ else _)) ∈ _ => destruct x
           end; cbn; set_solver.
  - intros b n1 m n2 f1 f2. unfold device_claim.
    repeat match goal with
           | |- status (sent (match ?x with _ => _ end)) ∈ _ => destruct x
           | |- status (sent (if ?x then _ else _)) ∈ _ => destruct x
           end; cbn; set_solver.
  - intros missing mk a now out. unfold proxy.
    destruct (resolveDiscordTokenFromAuthHeader s a now) as [tok |];
      [| left; cbn; set_solver].
    destruct (String.eqb tok ""); [left; cbn; set_solver |].
    destruct out as [| r]; [left; cbn; set_solver |].
    destruct (negb (ok r)) eqn:Hok; [| left; cbn; set_solver].
    right. exists r. apply negb_true_iff in Hok. auto.
Qed.

(** X16.  Which requests change the store.  The health check, the code
    exchange and the two passthrough routes never change it; a pairing
    start changes it only when it answers 200; a claim changes it only when
    it answers 200 or 500. *)
Theorem rejected_requests_leave_store (s : store) :
  (∀ now, after (health s now) = s)
  ∧ (∀ env b t u, after (auth_discord env s b t u) = s)
  ∧ (∀ a now out, after (api_me s a now out) = s
                  ∧ after (api_discord_guilds s a now out) = s)
  ∧ (∀ a m rnd now,
       status (sent (device_start s a m rnd now)) ≠ 200 →
       after (device_start s a m rnd now) = s)
  ∧ (∀ b n1 m n2 f1 f2,
       status (sent (device_claim s b n1 m n2 f1 f2)) ≠ 200 →
       status (sent (device_claim s b n1 m n2 f1 f2)) ≠ 500 →
       after (device_claim s b n1 m n2 f1 f2) = s).
Proof.
  split; [reflexivity |]. split; [intros; apply auth_discord_after |].
  split; [intros; unfold api_me, api_discord_guilds; now rewrite !proxy_after |].
  split.
  - intros a m rnd now. unfold device_start.
    repeat match goal with
           | |- _ (sent (match ?x with _ => _ end)) ≠ _ → _ => destruct x
           | |- _ (sent (if ?x then _ else _)) ≠ _ → _ => destruct x
           end; cbn; congruence.
  - intros b n1 m n2 f1 f2. unfold device_claim.
    repeat match goal with
           | |- _ (sent (match ?x with _ => _ end)) ≠ _ → _ => destruct x
           | |- _ (sent (if ?x then _ else _)) ≠ _ → _ => destruct x
           end; cbn; congruence.
Qed.

(** [rejected_requests_leave_store] for a claim of an unknown code. *)
Lemma rejected_requests_leave_store_witness :
  after (device_claim paired (JS.Obj [("device_code", JS.Str "ZZZZ-ZZZZ-ZZZZ")])
           0 Failed 0 "a" "b") = paired.
Proof.
  apply (proj2 (proj2 (proj2 (proj2 (rejected_requests_leave_store paired)))));
    vm_compute; discriminate.
Defined.

(** ** The code exchange *)



(** X18.  The code exchange never looks at the status of the user lookup:
    two provider answers with the same body give the same reply, so a user
    answer outside 200..299 whose body has an [id] is accepted, and one in
    200..299 without an [id] is refused. *)
Theorem auth_discord_ignores_user_status (env : environment) (s : store)
    (req_body : JS.value) (token_out : outcome) (r1 r2 : response) :
  json r1 = json r2 →
  auth_discord env s req_body token_out (Answered r1)
  = auth_discord env s req_body token_out (Answered r2).
Proof.
  intros Hjson. unfold auth_discord. now rewrite Hjson.
Qed.

(** [auth_discord_ignores_user_status] for the statuses 200 and 503. *)
Lemma auth_discord_ignores_user_status_witness :
  let env := {| DISCORD_CLIENT_ID := JS.Str "id"; DISCORD_CLIENT_SECRET := JS.Str "secret";
                DISCORD_REDIRECT_URI := JS.Null |} in
  let granted := {| resp_status := 200; text := "{}";
                    json := Some (JS.Obj [("access_token", JS.Str "tok")]) |} in
  let body := JS.Obj [("code", JS.Str "abc")] in
  auth_discord env initial body (Answered granted)
    (Answered {| resp_status := 200; text := "a"; json := Some (JS.Obj [("id", JS.Str "42")]) |})
  = auth_discord env initial body (Answered granted)
      (Answered {| resp_status := 503; text := "b"; json := Some (JS.Obj [("id", JS.Str "42")]) |}).
Proof.
  intros env granted body. now apply auth_discord_ignores_user_status.
Defined.



(** ** Device codes of any length *)

Lemma chars_length (s : string) : String.length s = length (list_ascii_of_string s).
Proof. induction s as [| c s IH]; cbn; congruence. Qed.

Lemma chars_append (a b : string) :
  list_ascii_of_string (a +:+ b)
  = (list_ascii_of_string a ++ list_ascii_of_string b)%list.
Proof.
  induction a as [| c a IH]; [reflexivity |].
  change (String c a +:+ b) with (String c (a +:+ b)). cbn. now rewrite IH.
Qed.

Lemma chars_substring (n m : nat) (s : string) :
  list_ascii_of_string (substring n m s) = take m (drop n (list_ascii_of_string s)).
Proof.
  revert n m. induction s as [| c s IH]; intros n m.
  - destruct n, m; reflexivity.
  - destruct n as [| n]; cbn.
    + destruct m as [| m]; cbn; [reflexivity | now rewrite IH].
    + apply IH.
Qed.

Lemma chars_get (n : nat) (s : string) : String.get n s = list_ascii_of_string s !! n.
Proof.
  revert n. induction s as [| c s IH]; intros n; [now destruct n |].
  destruct n as [| n]; cbn; [reflexivity | apply IH].
Qed.

Lemma chars_inj (a b : string) :
  list_ascii_of_string a = list_ascii_of_string b → a = b.
Proof.
  intros H. rewrite <- (string_of_list_ascii_of_string a),
                    <- (string_of_list_ascii_of_string b). now rewrite H.
Qed.

Lemma concat_empty_cons (x : string) (xs : list string) :
  String.concat "" (x :: xs) = x +:+ String.concat "" xs.
Proof.
  destruct xs as [| y ys]; [| reflexivity].
  cbn. apply chars_inj. rewrite chars_append. cbn. now rewrite app_nil_r.
Qed.

Lemma alphabet_NoDup : NoDup (list_ascii_of_string alphabet).
Proof. refine (bool_decide_unpack _ _). vm_compute. reflexivity. Qed.

Lemma draw_index_range (r : Q) : unit_interval r → 0 <= draw_index r < 31.
Proof.
  intros Hr. apply (floor_mul_range r (Z.of_nat (String.length alphabet)) Hr).
  reflexivity.
Qed.

Lemma draw_letter (r : Q) :
  unit_interval r →
  draw r = String (letter r) ""
  ∧ list_ascii_of_string alphabet !! Z.to_nat (draw_index r) = Some (letter r).
Proof.
  intros Hr. pose proof (draw_index_range r Hr) as Hk.
  unfold draw, letter. fold (draw_index r). unfold JS.index.
  destruct (Z.ltb_spec (draw_index r) 0); [lia |].
  rewrite chars_get.
  destruct (list_ascii_of_string alphabet !! Z.to_nat (draw_index r)) as [c |] eqn:Hc;
    [now split |].
  apply lookup_ge_None in Hc.
  change (length (list_ascii_of_string alphabet)) with 31%nat in Hc. lia.
Qed.

Lemma letter_in_alphabet (r : Q) : unit_interval r → in_alphabet (letter r).
Proof.
  intros Hr. destruct (draw_letter r Hr) as [_ Hl].
  unfold in_alphabet. apply list_elem_of_In. eapply list_elem_of_lookup_2. exact Hl.
Qed.

Lemma raw_chars (rnd : nat → Q) (l : list nat) :
  (∀ i, i ∈ l → unit_interval (rnd i)) →
  list_ascii_of_string (String.concat "" (map (λ i, draw (rnd i)) l))
  = map (λ i, letter (rnd i)) l.
Proof.
  induction l as [| i l IH]; intros Hl; [reflexivity |].
  cbn [map]. rewrite concat_empty_cons, chars_append.
  rewrite (proj1 (draw_letter (rnd i) (Hl i (list_elem_of_here _ _)))).
  cbn. f_equal. apply IH. intros j Hj. apply Hl. now right.
Qed.

Lemma raw_code_chars (len : nat) (rnd : nat → Q) :
  (∀ i, (i < len)%nat → unit_interval (rnd i)) →
  list_ascii_of_string (raw_code len rnd) = map (λ i, letter (rnd i)) (seq 0 len).
Proof.
  intros Hrnd. apply raw_chars. intros i Hi. apply Hrnd.
  apply elem_of_seq in Hi. lia.
Qed.

Lemma genDeviceCode_chars (len : nat) (rnd : nat → Q) :
  let raw := list_ascii_of_string (raw_code len rnd) in
  list_ascii_of_string (genDeviceCode len rnd)
  = (take 4 raw ++ "-"%char :: take 4 (drop 4 raw) ++ "-"%char :: drop 8 raw)%list.
Proof.
  intros raw. unfold genDeviceCode, JS.slice, JS.slice_from. cbv zeta.
  rewrite !chars_append, !chars_substring. fold raw. cbn [list_ascii_of_string app].
  rewrite drop_0. change (4 - 0)%nat with 4%nat. change (8 - 4)%nat with 4%nat.
  rewrite chars_length. fold raw. rewrite <- (length_drop raw 8), firstn_all.
  reflexivity.
Qed.

(** X20.  For every length [len], when the draws lie in [[0, 1)], the code
    that [genDeviceCode(len)] returns has [len + 2] characters, each of
    them a dash or a letter of the alphabet. *)
Theorem genDeviceCode_any_length (len : nat) (rnd : nat → Q) :
  (∀ i, (i < len)%nat → unit_interval (rnd i)) →
  String.length (genDeviceCode len rnd) = (len + 2)%nat
  ∧ Forall code_char (list_ascii_of_string (genDeviceCode len rnd)).
Proof.
  intros Hrnd. pose proof (raw_code_chars len rnd Hrnd) as Hraw.
  rewrite chars_length, genDeviceCode_chars. cbv zeta.
  assert (Hlen : length (list_ascii_of_string (raw_code len rnd)) = len)
    by (rewrite Hraw, length_map; apply length_seq).
  assert (Hall : Forall code_char (list_ascii_of_string (raw_code len rnd))).
  { rewrite Hraw. apply Forall_forall. intros c Hc.
    apply list_elem_of_fmap in Hc as (i & -> & Hi). apply elem_of_seq in Hi.
    right. apply letter_in_alphabet, Hrnd. lia. }
  split.
  - rewrite !length_app. cbn [length]. rewrite !length_app. cbn [length].
    rewrite !length_take, !length_drop, Hlen. lia.
  - repeat first [apply Forall_app_2 | apply Forall_cons_2 | apply Forall_take
                 | apply Forall_drop | exact Hall | now left].
Qed.

(** [genDeviceCode_any_length] for three draws: the code is [ACF--]. *)
Lemma genDeviceCode_any_length_witness :
  genDeviceCode 3 (λ i, Z.of_nat i # 12) = "ACF--"
  ∧ String.length (genDeviceCode 3 (λ i, Z.of_nat i # 12)) = 5%nat.
Proof.
  split; [vm_compute; reflexivity |].
  apply (genDeviceCode_any_length 3 (λ i, Z.of_nat i # 12)).
  intros i Hi. unfold unit_interval, Qle, Qlt; cbn; lia.
Defined.

(** X21.  Two device codes of the same length are equal exactly when
    every draw picked the same position of the alphabet: distinct
    sequences of positions never collide. *)
Theorem genDeviceCode_injective (len : nat) (rnd1 rnd2 : nat → Q) :
  (∀ i, (i < len)%nat → unit_interval (rnd1 i)) →
  (∀ i, (i < len)%nat → unit_interval (rnd2 i)) →
  genDeviceCode len rnd1 = genDeviceCode len rnd2
  ↔ ∀ i, (i < len)%nat → draw_index (rnd1 i) = draw_index (rnd2 i).
Proof.
  intros H1 H2.
  pose proof (raw_code_chars len rnd1 H1) as Hraw1.
  pose proof (raw_code_chars len rnd2 H2) as Hraw2.
  split.
  - intros Hcode. apply (f_equal list_ascii_of_string) in Hcode.
    rewrite !genDeviceCode_chars in Hcode. cbv zeta in Hcode.
    set (R1 := list_ascii_of_string (raw_code len rnd1)) in *.
    set (R2 := list_ascii_of_string (raw_code len rnd2)) in *.
    assert (Hl1 : length R1 = len) by (rewrite Hraw1, length_map; apply length_seq).
    assert (Hl2 : length R2 = len) by (rewrite Hraw2, length_map; apply length_seq).
    apply app_inj_1 in Hcode as [Ha Hcode];
      [| rewrite !length_take; lia].
    injection Hcode as Hcode.
    apply app_inj_1 in Hcode as [Hb Hcode];
      [| rewrite !length_take, !length_drop; lia].
    injection Hcode as Hc.
    assert (HR : R1 = R2).
    { rewrite <- (take_drop 4 R1), <- (take_drop 4 R2).
      rewrite <- (take_drop 4 (drop 4 R1)), <- (take_drop 4 (drop 4 R2)).
      rewrite !drop_drop. change (4 + 4)%nat with 8%nat. congruence. }
    intros i Hi.
    assert (Hletter : letter (rnd1 i) = letter (rnd2 i)).
    { rewrite Hraw1, Hraw2 in HR.
      apply (f_equal (λ l, l !! i)) in HR.
      rewrite !list_lookup_fmap, !lookup_seq_lt in HR by lia.
      cbn in HR. congruence. }
    destruct (draw_letter (rnd1 i) (H1 i Hi)) as [_ Hp1].
    destruct (draw_letter (rnd2 i) (H2 i Hi)) as [_ Hp2].
    rewrite Hletter in Hp1.
    pose proof (NoDup_lookup _ _ _ _ alphabet_NoDup Hp1 Hp2) as Hidx.
    pose proof (draw_index_range (rnd1 i) (H1 i Hi)).
    pose proof (draw_index_range (rnd2 i) (H2 i Hi)). lia.
  - intros Hidx. unfold genDeviceCode, raw_code.
    assert (Hmap : map (λ i, draw (rnd1 i)) (seq 0 len)
                   = map (λ i, draw (rnd2 i)) (seq 0 len)).
    { apply map_ext_in. intros i Hi. apply in_seq in Hi.
      unfold draw. fold (draw_index (rnd1 i)). fold (draw_index (rnd2 i)).
      rewrite (Hidx i); [reflexivity | lia]. }
    now rewrite Hmap.
Qed.

(** [genDeviceCode_injective] for two sequences of draws that differ but
    pick the same positions. *)
Lemma genDeviceCode_injective_witness :
  genDeviceCode 12 (λ _, 0%Q) = genDeviceCode 12 (λ _, (1 # 100)%Q).
Proof.
  apply (genDeviceCode_injective 12 (λ _, 0%Q) (λ _, (1 # 100)%Q)).
  - intros i _. unfold unit_interval, Qle, Qlt; cbn; lia.
  - intros i _. unfold unit_interval, Qle, Qlt; cbn; lia.
  - intros i _. reflexivity.
Defined.
